(** * Plex Media Player bootstrap (src/main.cpp): log redaction, command-line
    handling, logger configuration and the start-up sequence of [main].

    The definitions follow the source file function by function:
    - [Redaction]: [elidePattern] and [processLog] on [QString]s;
    - [CommandLine]: [appendCommandLineArguments] and its fixed buffers;
    - [Logging]: [logLevelFromString], [initLogger], and the rotation policy
      of the file destination;
    - [Lifecycle]: [main] as a computation over an explicit trace of the
      calls it makes, with early [return]s and [FatalException].

    The theorems about each of them follow in [RedactionFacts],
    [CommandLineFacts], [LoggingFacts] and [LifecycleFacts]. *)

From Stdlib Require Import ZArith Lia Ascii String.
From stdpp Require Import base tactics option list strings.

Local Open Scope Z_scope.

(** ** QString redaction: [elidePattern] and [processLog] *)

Module Redaction.

(** A [QString] is a sequence of code units.  The code only compares code
    units and overwrites them with ['x'], so code units are modelled by
    [ascii] (every character of the two token patterns is ASCII). *)
Abbreviation QChar := ascii (only parsing).
Abbreviation QString := (list ascii) (only parsing).

Definition qs (s : string) : QString := list_ascii_of_string s.

(** [QChar('x')] *)
Definition QChar_x : QChar := "x"%char.

(** [sub] is read at the head of [s]. *)
Fixpoint startsWith (sub s : QString) : bool :=
  match sub, s with
  | [], _ => true
  | _ :: _, [] => false
  | a :: sub', b :: s' => Ascii.eqb a b && startsWith sub' s'
  end.

(** Forward scan of [QString::indexOf]: [s] is the text from index [i] on. *)
Fixpoint search (sub s : QString) (i : nat) : option nat :=
  if startsWith sub s then Some i
  else match s with
       | [] => None
       | _ :: s' => search sub s' (S i)
       end.

(** [msg.indexOf(sub, from)] (Qt, case sensitive): the least index at or
    after [from] where [sub] occurs, [-1] when there is none.  A negative
    [from] counts from the end, and a [from] with [from + sub.length() >
    msg.length()] finds nothing.  An empty [sub] is found at [from]. *)
Definition indexOf (msg sub : QString) (from : Z) : Z :=
  let l := Z.of_nat (length msg) in
  let sl := Z.of_nat (length sub) in
  let from := if from <? 0 then from + l else from in
  if (from <? 0) || (l <? sl + from) then -1
  else match search sub (drop (Z.to_nat from) msg) (Z.to_nat from) with
       | Some i => Z.of_nat i
       | None => -1
       end.

(** [for (int n = 0; n < chars; n++) msg[start + n] = QChar('x');]
    with [k] the number of iterations left.  The guard of [elidePattern]
    keeps every index below [msg.length()]. *)
Fixpoint fill_x (k : nat) (msg : QString) (start n : Z) : QString :=
  match k with
  | O => msg
  | S k' => fill_x k' (<[Z.to_nat (start + n) := QChar_x]> msg) start (n + 1)
  end.

Definition mask (msg : QString) (start chars : Z) : QString :=
  fill_x (Z.to_nat chars) msg start 0.

(** The range of [int] (32 bits). *)
Definition INT_MAX : Z := 2147483647.
Definition INT_MIN : Z := -2147483648.

(** The count is an [int] and no sum that the loop of [elidePattern]
    computes leaves the range of [int].  The sums are [start +
    substring.length() + chars] and [start + n] with [n < chars], for a
    [start] at which the pattern was found, so that [start +
    substring.length()] is at most [msg.length()]. *)
Definition fits_int (msg : QString) (chars : Z) : Prop :=
  INT_MIN ≤ chars ∧ Z.of_nat (length msg) + chars ≤ INT_MAX.

(** The [while (true)] loop of [elidePattern]; [fuel] bounds the number of
    iterations, [None] means the bound was reached before the [break].
    The [int]s of the source are integers here.  This is the arithmetic of
    the source as long as no sum overflows, which is undefined in the
    source: [fits_int] is the condition, and the statements that range over
    the count assume it where a sum could overflow.  With the count of
    [processLog] (20) it holds of every QString, which has fewer than 2^30
    code units. *)
Fixpoint elide_loop (fuel : nat) (msg sub : QString) (chars start : Z)
  : option QString :=
  match fuel with
  | O => None
  | S fuel' =>
      let start := indexOf msg sub start in
      if (start <? 0)
         || (Z.of_nat (length msg) <? start + Z.of_nat (length sub) + chars)
      then Some msg
      else
        let start := start + Z.of_nat (length sub) in
        elide_loop fuel' (mask msg start chars) sub chars start
  end.

Definition elidePattern_fuel (fuel : nat) (msg sub : QString) (chars : Z)
  : option QString :=
  elide_loop fuel msg sub chars 0.

(** With a non-empty pattern every iteration advances [start] by at least
    one, so [msg.length() + 1] iterations are enough
    ([elidePattern_terminates]); with an empty pattern the loop of the source
    need not end ([elidePattern_empty_diverges]). *)
Definition elidePattern (msg sub : QString) (chars : Z) : option QString :=
  elidePattern_fuel (S (length msg)) msg sub chars.

Definition token_eq : QString := qs "X-Plex-Token=".
Definition token_3D : QString := qs "X-Plex-Token%3D".

Definition processLog (msg : QString) : option QString :=
  msg1 ← elidePattern msg token_eq 20;
  elidePattern msg1 token_3D 20.

(** *** Occurrences *)

(** [sub] occurs in [msg] at index [i]. *)
Definition occurs (sub msg : QString) (i : nat) : Prop :=
  (i + length sub ≤ length msg)%nat ∧ take (length sub) (drop i msg) = sub.

(** The [n] code units after the occurrence at [i] are all ['x']. *)
Definition masked_after (sub out : QString) (n i : nat) : Prop :=
  ∀ j, (i + length sub ≤ j < i + length sub + n)%nat → out !! j = Some QChar_x.

(** No proper non-empty prefix of [p] is also a suffix of [p]: two
    occurrences of [p] never overlap. *)
Definition unbordered (p : QString) : Prop :=
  ∀ k, (0 < k < length p)%nat → take k p ≠ drop (length p - k) p.

Definition unborderedb (p : QString) : bool :=
  forallb (λ k, negb (bool_decide (take k p = drop (length p - k)%nat p)))
          (seq 1 (length p - 1)).

(** ['x'] is not the first code unit of [p], and every ['x'] of [p] is
    followed, inside [p], by another code unit: an occurrence of [p] cannot
    meet a run of two or more ['x']. *)
Definition x_isolated (p : QString) : Prop :=
  p !! 0%nat ≠ Some QChar_x
  ∧ ∀ k, p !! k = Some QChar_x → ∃ c, p !! S k = Some c ∧ c ≠ QChar_x.

Definition x_isolatedb (p : QString) : bool :=
  negb (bool_decide (p !! 0%nat = Some QChar_x))
  && forallb (λ k, negb (bool_decide (p !! k = Some QChar_x))
                   || match p !! S k with
                      | Some c => negb (bool_decide (c = QChar_x))
                      | None => false
                      end)
             (seq 0 (length p)).

(** [out] is [msg] with some runs of [n] code units overwritten by ['x']. *)
Definition x_runs (n : nat) (msg out : QString) : Prop :=
  length out = length msg
  ∧ ∀ j, out !! j ≠ msg !! j →
      ∃ t, (t ≤ j < t + n)%nat
           ∧ ∀ j', (t ≤ j' < t + n)%nat → out !! j' = Some QChar_x.

(** What one run of the loop from position [s] guarantees about its result. *)
Record elide_post (sub : QString) (n s : nat) (msg out : QString) : Prop := {
  post_length : length out = length msg;
  post_changed : ∀ j, out !! j ≠ msg !! j →
    ∃ i, (s ≤ i)%nat ∧ occurs sub out i
         ∧ (i + length sub + n ≤ length msg)%nat
         ∧ (i + length sub ≤ j < i + length sub + n)%nat
         ∧ masked_after sub out n i;
  post_masked : unbordered sub →
    ∀ i, (s ≤ i)%nat → occurs sub out i →
         (i + length sub + n ≤ length out)%nat → masked_after sub out n i
}.

End Redaction.

(** ** Build switches and constants of headers that are not part of main.cpp *)

Record Build := {
  Q_OS_MAC : bool;
  Q_OS_WIN32 : bool;
  Q_OS_UNIX : bool;
  KONVERGO_OPENELEC : bool;
  (** the macro [SETTINGS_SECTION_MAIN] of settings/SettingsSection.h *)
  SETTINGS_SECTION_MAIN : string
}.

(** ** [appendCommandLineArguments] *)

Module CommandLine.

Local Open Scope nat_scope.

(** [static char *newArgs[16]] *)
Definition newArgs_slots : nat := 16.

(** Zero-initialised static storage: sixteen null pointers. *)
Definition newArgs_init : list (option string) := replicate newArgs_slots None.

(** [malloc(256)] followed by [strcpy]: the characters and the terminating
    NUL have to fit into the 256 bytes; a longer string is written past the
    end of the buffer, which is undefined ([None]). *)
Definition strcpy_malloc256 (s : string) : option string :=
  if decide (String.length s < 256) then Some s else None.

(** [newArgs[iarg] = p]: a store outside the sixteen slots is undefined. *)
Definition store (newArgs : list (option string)) (iarg : nat) (p : string)
  : option (list (option string)) :=
  if decide (iarg < length newArgs) then Some (<[iarg := Some p]> newArgs)
  else None.

(** [for (int iarg = 0; iarg < argList.size(); iarg++) { ... }], entered at
    index [iarg] with [argList] the entries from [iarg] on. *)
Fixpoint rebuild (argList : list string) (iarg : nat)
    (newArgs : list (option string)) : option (list (option string)) :=
  match argList with
  | [] => Some newArgs
  | a :: rest =>
      p ← strcpy_malloc256 a;
      newArgs' ← store newArgs iarg p;
      rebuild rest (S iarg) newArgs'
  end.

(** The arguments the function adds. *)
Definition extra_arguments (b : Build) : list string :=
  (if KONVERGO_OPENELEC b then ["--disable-gpu"%string] else [])
  ++ ["--enable-viewport"%string; "--enable-viewport-meta"%string].

(** [toStdString] is what [QString(argv[i]).toStdString()] returns for
    [argv[i]] (Qt decodes the bytes and encodes them again); it is a
    behaviour of the toolkit and taken as a parameter.  The result is the new
    [argc] and the array [newArgs]; [None] is undefined behaviour. *)
Definition appendCommandLineArguments (b : Build) (toStdString : string → string)
    (argv : list string) : option (nat * list (option string)) :=
  let argList := map toStdString argv ++ extra_arguments b in
  newArgs ← rebuild argList 0 newArgs_init;
  Some (length argList, newArgs).

(** The argument vector a reader of [(argc, newArgs)] sees. *)
Definition arguments (r : nat * list (option string)) : list string :=
  omap id (take r.1 r.2).

End CommandLine.

(** ** Logging: levels, [initLogger], rotation *)

Module Logging.

Inductive Level :=
  TraceLevel | DebugLevel | InfoLevel | WarnLevel | ErrorLevel | FatalLevel
| OffLevel.

Definition logLevelFromString (str : string) : Level :=
  if String.eqb str "trace" then TraceLevel
  else if String.eqb str "debug" then DebugLevel
  else if String.eqb str "info" then InfoLevel
  else if String.eqb str "warn" then WarnLevel
  else if String.eqb str "error" then ErrorLevel
  else if String.eqb str "fatal" then FatalLevel
  else if String.eqb str "disable" then OffLevel
  else DebugLevel.

Inductive LogRotationOption :=
  DisableLogRotation | EnableLogRotation | EnableLogRotationOnOpen.

(** What [DestinationFactory::MakeFileDestination] is given. *)
Record FileDestination := {
  filePath : string;
  rotation : LogRotationOption;
  MaxSizeBytes : Z;
  MaxOldLogCount : Z
}.

(** The settings of [Logger::instance()] that [initLogger] touches. *)
Record Logger := {
  destinations : list FileDestination;
  loggingLevel : Level;
  processingCallback : option (list ascii → option (list ascii));
  messageHandlerInstalled : bool
}.

(** [logFile] is [Paths::logDir(Names::MainName() + ".log")]. *)
Definition initLogger (logFile : string) (l : Logger) : Logger :=
  let dest := {| filePath := logFile;
                 rotation := EnableLogRotationOnOpen;
                 MaxSizeBytes := 1024 * 1024;
                 MaxOldLogCount := 9 |} in
  {| destinations := destinations l ++ [dest];
     loggingLevel := DebugLevel;
     processingCallback := Some Redaction.processLog;
     messageHandlerInstalled := true |}.

(** The rotation policy of the file destination belongs to the logging
    library (QsLog), which main.cpp only configures.  It is stated for any
    type [Rec] of records with a byte count [size]. *)
Section Rotation.
Context {Rec : Type} (size : Rec → Z).

(** Modelled from the spec: the files of a file destination (the logging
    library is missing): the active file, as the list of the records written
    to it, and the rotation slots, newest first. *)
Record LogFiles := { active : list Rec; rotated : list (list Rec) }.

(** Modelled from the spec: the size of a log file, the sum of the sizes of
    its records (the logging library is missing). *)
Definition file_size (f : list Rec) : Z := foldr (λ r n, size r + n) 0 f.

(** Modelled from the spec: rotation of the file destination (the logging
    library is missing).  "It is renamed into a rotation slot and a fresh
    file opened; files beyond the retained count are deleted, oldest
    first." *)
Definition rotate (d : FileDestination) (fs : LogFiles) : LogFiles :=
  {| active := [];
     rotated := take (Z.to_nat (MaxOldLogCount d)) (active fs :: rotated fs) |}.

(** Modelled from the spec: writing a record to the file destination (the
    logging library is missing).  "When the active log exceeds the size
    bound, it is renamed into a rotation slot and a fresh file opened." *)
Definition write (d : FileDestination) (fs : LogFiles) (r : Rec) : LogFiles :=
  let fs' := {| active := active fs ++ [r]; rotated := rotated fs |} in
  if MaxSizeBytes d <? file_size (active fs') then rotate d fs' else fs'.

End Rotation.

(** The logger before [initLogger] has run. *)
Definition empty_logger : Logger :=
  {| destinations := [];
     loggingLevel := InfoLevel;
     processingCallback := None;
     messageHandlerInstalled := false |}.

End Logging.

(** ** [main]: the start-up sequence *)

Module Lifecycle.

Import Logging.

Local Open Scope string_scope.
Local Open Scope list_scope.

(** Calls into the application's own components (crash dumps, settings,
    update manager, component manager, UI engine, ...).  These run
    application code and may raise a [FatalException].  [Exec] is
    [app.exec()] of the application object created in the [try] block: the
    event loop runs application code.  [InitLogger] is the call of
    [initLogger()] with the two computations of the name of the log file it
    starts with, [Paths::logDir(Names::MainName() + ".log")]: these go into
    the application's components; the rest of [initLogger()] is toolkit
    calls (see [run_initLogger]). *)
Inductive ProjectCall :=
| Names_MainName
| Version_GetVersionString
| Version_GetBuildDate
| Settings_readPreinitValue (section key : string)
| SetupCrashDumper
| NewUniqueApplication
| EnsureUnique
| NewSignalManager
| InitLogger
| CheckForUpdates
| InitD3DDevice
| ComponentManager_initialize
| Settings_value (section key : string)
| HelperLauncher_connectToHelper
| LoadUI
| Exec
| Unload.

Inductive OpenGLAttribute := AA_UseDesktopOpenGL | AA_UseOpenGLES.

(** Calls into the toolkit, the logging library and the C library, and
    [delete uniqueApp]; none of them raises a [FatalException].  The last four are made by the
    [catch] block. *)
Inductive ToolkitCall :=
| PrintLicenses (contents : string)
| PrintStartingHidden
| Qputenv (name value : string)
| SetDefaultSurfaceFormat (major minor : Z)
| SetApplicationName
| SetApplicationVersion
| SetOrganizationDomain (domain : string)
| SetAttribute (a : OpenGLAttribute)
| NewGuiApplication (args : list string)
| SetWindowIcon (resource : string)
| QLog (level : Level) (text : string)
| AppQuit
| SetlocaleNumericC
| QtWebEngine_initialize
| SetLoggingLevel (level : Level)
| QDebugLoggingTo
| MakeFileDestination (rotation : LogRotationOption)
                      (maxSizeBytes maxOldLogCount : Z)
| AddDestination
| SetProcessingCallback
| InstallMessageHandler
| DeleteUniqueApplication
| NewFallbackGuiApplication (args : list string)
| SetContextProperty (name value : string)
| LoadQml (url : string)
| FallbackExec.

Inductive Event :=
| Call (c : ProjectCall)
| Toolkit (q : ToolkitCall).

(** Everything [main] reads from its environment. *)
Record World := {
  (** contents of the resource [:/misc/licenses.txt] *)
  licenses_txt : string;
  (** [QString(s).toStdString()] *)
  toStdString : string → string;
  (** [QObject::tr] *)
  tr : string → string;
  (** the preinit value of [useOpenGL]: [Some b] when it is a [Bool] *)
  useOpenGL : option bool;
  ensureUnique : bool;
  checkForUpdates : bool;
  remoteInspector : bool;
  logLevel : string;
  (** the value [app.exec()] returns *)
  exec_result : Z;
  (** the [FatalException] a call raises, with its message *)
  fatal : ProjectCall → option string
}.

(** How a block of statements ends. *)
Inductive Result (A : Type) :=
| Normal (a : A)
| Returned (code : Z)        (** a [return] statement of [main] *)
| Thrown (message : string)  (** a [FatalException] *)
| Undefined.                 (** undefined behaviour *)
Arguments Normal {A} a.
Arguments Returned {A} code.
Arguments Thrown {A} message.
Arguments Undefined {A}.

(** A computation: the events it performs, in order, and how it ends. *)
Definition M (A : Type) : Type := list Event * Result A.

Definition ret {A} (a : A) : M A := ([], Normal a).

Definition bind {A B} (m : M A) (k : A → M B) : M B :=
  match m with
  | (t, Normal a) => let '(t', r) := k a in (t ++ t', r)
  | (t, Returned c) => (t, Returned c)
  | (t, Thrown e) => (t, Thrown e)
  | (t, Undefined) => (t, Undefined)
  end.

Notation "x ←' m ; k" := (bind m (λ x, k))
  (at level 100, m at next level, right associativity, only parsing).
Notation "m ;;' k" := (bind m (λ _, k))
  (at level 100, right associativity, only parsing).

Definition toolkit (q : ToolkitCall) : M unit := ([Toolkit q], Normal tt).

(** A call that returns [a] unless it raises. *)
Definition ask {A} (w : World) (c : ProjectCall) (a : A) : M A :=
  match fatal w c with
  | Some e => ([Call c], Thrown e)
  | None => ([Call c], Normal a)
  end.

Definition call (w : World) (c : ProjectCall) : M unit := ask w c tt.

Definition return_ {A} (code : Z) : M A := ([], Returned code).

Definition when (b : bool) (m : M unit) : M unit := if b then m else ret tt.

Definition defined {A} (o : option A) : M A :=
  match o with
  | Some a => ret a
  | None => ([], Undefined)
  end.

Definition EXIT_SUCCESS : Z := 0.

Definition preinitQt (w : World) (b : Build) : M unit :=
  call w Names_MainName ;;'
  toolkit SetApplicationName ;;'
  call w Version_GetVersionString ;;'
  toolkit SetApplicationVersion ;;'
  toolkit (SetOrganizationDomain "plex.tv") ;;'
  when (Q_OS_WIN32 b) (
    useOpengl ←' ask w (Settings_readPreinitValue (SETTINGS_SECTION_MAIN b) "useOpenGL")
                      (useOpenGL w) ;
    let useOpengl := match useOpengl with Some v => v | None => false end in
    if useOpengl then toolkit (SetAttribute AA_UseDesktopOpenGL)
    else toolkit (SetAttribute AA_UseOpenGLES)).

(** [initLogger()] as [main] runs it: the name of the log file is computed
    (for [qDebug] and again for the destination; [Call InitLogger]), then
    the file destination is made and added, the level is set to
    [DebugLevel], [processLog] becomes the processing callback, and
    [qtMessageOutput] the message handler of Qt. *)
Definition run_initLogger (w : World) : M unit :=
  call w InitLogger ;;'
  toolkit QDebugLoggingTo ;;'
  toolkit (MakeFileDestination EnableLogRotationOnOpen (1024 * 1024) 9) ;;'
  toolkit AddDestination ;;'
  toolkit (SetLoggingLevel DebugLevel) ;;'
  toolkit SetProcessingCallback ;;'
  toolkit InstallMessageHandler.

Definition updateLogLevel (w : World) (b : Build) : M unit :=
  level ←' ask w (Settings_value (SETTINGS_SECTION_MAIN b) "logLevel") (logLevel w) ;
  when (negb (Nat.eqb (String.length level) 0)) (
    toolkit (QLog InfoLevel ("Setting log level to: " +:+ level)) ;;'
    toolkit (SetLoggingLevel (logLevelFromString level))).

(** [for (int n = 1; n < argc; n++) { ... }] over the arguments from
    [argv[n]] on; the result is [startHidden]. *)
Fixpoint scan_arguments (w : World) (args : list string) (startHidden : bool)
  : M bool :=
  match args with
  | [] => ret startHidden
  | a :: rest =>
      if String.eqb a "--licenses" then
        toolkit (PrintLicenses (licenses_txt w)) ;;'
        return_ 0
      else if String.eqb a "--hidden" then
        toolkit PrintStartingHidden ;;'
        scan_arguments w rest true
      else scan_arguments w rest startHidden
  end.

(** The [try] block of [main]. *)
Definition main_try (w : World) (b : Build) (argv : list string) : M unit :=
  startHidden ←' scan_arguments w (drop 1 argv) false ;
  newArgs ←' defined (CommandLine.appendCommandLineArguments b (toStdString w) argv) ;
  let newArgv := CommandLine.arguments newArgs in
  when (Q_OS_MAC b) (
    toolkit (Qputenv "QT_LOGGING_RULES" "qt.network.ssl.warning=false") ;;'
    toolkit (SetDefaultSurfaceFormat 3 2)) ;;'
  preinitQt w b ;;'
  toolkit (NewGuiApplication newArgv) ;;'
  toolkit (SetWindowIcon ":/images/icon.png") ;;'
  call w SetupCrashDumper ;;'
  call w NewUniqueApplication ;;'
  unique ←' ask w EnsureUnique (ensureUnique w) ;
  if negb unique then return_ EXIT_SUCCESS else
  when (Q_OS_UNIX b) (call w NewSignalManager) ;;'
  run_initLogger w ;;'
  call w Version_GetVersionString ;;'
  call w Version_GetBuildDate ;;'
  toolkit (QLog InfoLevel "Starting Plex Media Player version:") ;;'
  toolkit (QLog InfoLevel "  Running on:") ;;'
  toolkit (QLog InfoLevel "  Qt Version:") ;;'
  update ←' ask w CheckForUpdates (checkForUpdates w) ;
  if update then
    toolkit AppQuit ;;'
    return_ 0
  else
  when (Q_OS_WIN32 b) (call w InitD3DDevice) ;;'
  when (Q_OS_UNIX b) (toolkit SetlocaleNumericC) ;;'
  call w ComponentManager_initialize ;;'
  inspect ←' ask w (Settings_value (SETTINGS_SECTION_MAIN b) "remoteInspector")
                   (remoteInspector w) ;
  when inspect (toolkit (Qputenv "QTWEBENGINE_REMOTE_DEBUGGING" "0.0.0.0:9992")) ;;'
  toolkit QtWebEngine_initialize ;;'
  when (Q_OS_UNIX b) (toolkit SetlocaleNumericC) ;;'
  call w HelperLauncher_connectToHelper ;;'
  updateLogLevel w b ;;'
  when (negb startHidden) (call w LoadUI) ;;'
  code ←' ask w Exec (exec_result w) ;
  call w Unload ;;'
  toolkit DeleteUniqueApplication ;;'
  return_ code.

(** The [catch (FatalException& e)] block. *)
Definition fallback_view (w : World) (argv : list string) (message : string)
  : list Event :=
  [ Toolkit (QLog FatalLevel ("Unhandled FatalException: " +:+ message));
    Toolkit (NewFallbackGuiApplication argv);
    Toolkit (SetContextProperty "errorTitle" (tr w "A critical error occurred."));
    Toolkit (SetContextProperty "errorText"
               (message +:+ "<br>"
                +:+ tr w "Please visit Plex support forums for support."));
    Toolkit (LoadQml "qrc:/ui/errormessage.qml");
    Toolkit FallbackExec ].

(** How the process ends. *)
Inductive Outcome :=
| Exit (code : Z)
| UndefinedBehaviour.

Definition main (w : World) (b : Build) (argv : list string)
  : list Event * Outcome :=
  match main_try w b argv with
  | (t, Returned code) => (t, Exit code)
  | (t, Thrown message) => (t ++ fallback_view w argv message, Exit 1)
  | (t, Undefined) => (t, UndefinedBehaviour)
  | (t, Normal _) => (t, Exit 0)
  end.

(** What [main] returns for each way its [try] block can end. *)
Definition exit_of (r : Result unit) : Outcome :=
  match r with
  | Returned code => Exit code
  | Thrown _ => Exit 1
  | Undefined => UndefinedBehaviour
  | Normal _ => Exit 0
  end.

Definition trace (r : list Event * Outcome) : list Event := r.1.
Definition outcome (r : list Event * Outcome) : Outcome := r.2.

(** The phases of the start-up sequence. *)
Inductive Phase :=
| CrashReporter | SingleInstance | LoggingPipeline | UpdateGate
| ComponentInit | UIHandOff | EventLoop | Teardown.

Definition phase_of (e : Event) : option Phase :=
  match e with
  | Call SetupCrashDumper => Some CrashReporter
  | Call EnsureUnique => Some SingleInstance
  | Call InitLogger => Some LoggingPipeline
  | Call CheckForUpdates => Some UpdateGate
  | Call ComponentManager_initialize => Some ComponentInit
  | Call LoadUI => Some UIHandOff
  | Call Exec => Some EventLoop
  | Call Unload => Some Teardown
  | _ => None
  end.

Definition phases (t : list Event) : list Phase := omap phase_of t.

(** The calls into the application's components that a trace makes. *)
Definition calls (t : list Event) : list ProjectCall :=
  omap (λ e, match e with Call c => Some c | Toolkit _ => None end) t.

Definition startup_order (startHidden : bool) : list Phase :=
  [CrashReporter; SingleInstance; LoggingPipeline; UpdateGate; ComponentInit]
  ++ (if startHidden then [] else [UIHandOff])
  ++ [EventLoop; Teardown].

(** A world in which nothing fails, this process is the only instance and
    there is no update. *)
Definition quiet_world : World :=
  {| licenses_txt := "LICENSES";
     toStdString := λ s, s;
     tr := λ s, s;
     useOpenGL := None;
     ensureUnique := true;
     checkForUpdates := false;
     remoteInspector := false;
     logLevel := "";
     exec_result := 0;
     fatal := λ _, None |}.

Definition linux_build : Build :=
  {| Q_OS_MAC := false; Q_OS_WIN32 := false; Q_OS_UNIX := true;
     KONVERGO_OPENELEC := false; SETTINGS_SECTION_MAIN := "main" |}.

Definition windows_build : Build :=
  {| Q_OS_MAC := false; Q_OS_WIN32 := true; Q_OS_UNIX := false;
     KONVERGO_OPENELEC := false; SETTINGS_SECTION_MAIN := "main" |}.

(** *** Views of a run used by the proofs *)

(** The events a statement about the start-up sequence looks at: every call
    into the application, the construction of the application object and
    [app.quit()]. *)
Definition milestone (e : Event) : option Event :=
  match e with
  | Call _ => Some e
  | Toolkit AppQuit => Some e
  | Toolkit (NewGuiApplication _) => Some e
  | _ => None
  end.

Definition milestones (t : list Event) : list Event := omap milestone t.

(** [Ψ] holds of the milestones of [m] and of the way [m] ends. *)
Definition wpm {A} (m : M A) (Ψ : list Event → Result A → Prop) : Prop :=
  Ψ (milestones m.1) m.2.

(** A block that only makes toolkit calls outside the milestones. *)
Definition silent (m : M unit) : Prop := milestones m.1 = [] ∧ m.2 = Normal tt.

(** No call of the trace raised. *)
Definition quiet (w : World) (t : list Event) : Prop :=
  ∀ c, Call c ∈ t → fatal w c = None.

(** A computation ends by a [FatalException] exactly when its last event is
    a call that raises, and no earlier call raised. *)
Definition sound (w : World) {A} (m : M A) : Prop :=
  match m.2 with
  | Thrown e => ∃ pre c, m.1 = pre ++ [Call c] ∧ fatal w c = Some e ∧ quiet w pre
  | _ => quiet w m.1
  end.

(** *** Worlds of concrete runs *)

Definition update_world : World :=
  {| licenses_txt := licenses_txt quiet_world;
     toStdString := toStdString quiet_world;
     tr := tr quiet_world;
     useOpenGL := None;
     ensureUnique := true;
     checkForUpdates := true;
     remoteInspector := false;
     logLevel := "";
     exec_result := 0;
     fatal := λ _, None |}.

Definition second_instance_world : World :=
  {| licenses_txt := licenses_txt quiet_world;
     toStdString := toStdString quiet_world;
     tr := tr quiet_world;
     useOpenGL := None;
     ensureUnique := false;
     checkForUpdates := false;
     remoteInspector := false;
     logLevel := "";
     exec_result := 0;
     fatal := λ _, None |}.

(** The component manager fails to initialise. *)
Definition faulty_world : World :=
  {| licenses_txt := licenses_txt quiet_world;
     toStdString := toStdString quiet_world;
     tr := tr quiet_world;
     useOpenGL := None;
     ensureUnique := true;
     checkForUpdates := false;
     remoteInspector := false;
     logLevel := "";
     exec_result := 0;
     fatal := λ c, match c with
                   | ComponentManager_initialize => Some "component failed"
                   | _ => None
                   end |}.

(** *** Other views of a run *)

(** The events of a trace that [P] selects. *)
Definition keep (P : Event → bool) (e : Event) : option Event :=
  if P e then Some e else None.

Definition shown (P : Event → bool) (t : list Event) : list Event :=
  omap (keep P) t.

(** [Ψ] holds of the selected events of [m] and of the way [m] ends. *)
Definition wpv {A} (P : Event → bool) (m : M A)
    (Ψ : list Event → Result A → Prop) : Prop :=
  Ψ (shown P m.1) m.2.

(** A block whose events are all outside the selection. *)
Definition silent_for (P : Event → bool) (m : M unit) : Prop :=
  shown P m.1 = [] ∧ m.2 = Normal tt.

(** The calls into the application and [delete uniqueApp]. *)
Definition teardown_view (e : Event) : bool :=
  match e with
  | Call _ => true
  | Toolkit DeleteUniqueApplication => true
  | _ => false
  end.

(** [setLoggingLevel], and the calls that place it: [initLogger()], the
    start of the helper and the event loop. *)
Definition log_level_view (e : Event) : bool :=
  match e with
  | Call InitLogger => true
  | Call HelperLauncher_connectToHelper => true
  | Call Exec => true
  | Toolkit (SetLoggingLevel _) => true
  | _ => false
  end.

(** [qputenv] and [ComponentManager::Get().initialize()]. *)
Definition environment_view (e : Event) : bool :=
  match e with
  | Call ComponentManager_initialize => true
  | Toolkit (Qputenv _ _) => true
  | _ => false
  end.

(** [qputenv] and [QtWebEngine::initialize()] alone. *)
Definition web_engine_view (e : Event) : bool :=
  match e with
  | Toolkit (Qputenv _ _) => true
  | Toolkit QtWebEngine_initialize => true
  | _ => false
  end.

(** The calls of [main] that come before [initLogger()]. *)
Definition before_logging (c : ProjectCall) : bool :=
  match c with
  | Names_MainName | Version_GetVersionString | Settings_readPreinitValue _ _
  | SetupCrashDumper | NewUniqueApplication | EnsureUnique
  | NewSignalManager => true
  | _ => false
  end.

End Lifecycle.

(** * Theorems *)

Module RedactionFacts.
Import Redaction.

Lemma startsWith_take sub s : startsWith sub s = true ↔ take (length sub) s = sub.
Proof.
  revert s. induction sub as [|a sub IH]; intros [|b s]; simpl; try done.
  rewrite andb_true_iff, IH. split.
  - intros [Hab ->]. apply Ascii.eqb_eq in Hab. by subst.
  - intros [= -> ->]. split; [apply Ascii.eqb_refl | done].
Qed.

Lemma occurs_startsWith sub msg i :
  occurs sub msg i ↔
  (i + length sub ≤ length msg)%nat ∧ startsWith sub (drop i msg) = true.
Proof. unfold occurs. by rewrite startsWith_take. Qed.

Lemma occurs_lookup sub msg i :
  occurs sub msg i ↔
  (i + length sub ≤ length msg)%nat ∧
  ∀ k, (k < length sub)%nat → msg !! (i + k)%nat = sub !! k.
Proof.
  unfold occurs. split; intros [Hlen H]; (split; [done|]).
  - intros k Hk.
    transitivity (take (length sub) (drop i msg) !! k); [|by rewrite H].
    rewrite lookup_take_lt by done. by rewrite lookup_drop.
  - apply list_eq. intros k. destruct (decide (k < length sub)%nat) as [Hk|Hk].
    + rewrite lookup_take_lt by done. rewrite lookup_drop. by apply H.
    + rewrite lookup_take_ge by lia. symmetry. apply lookup_ge_None. lia.
Qed.

Lemma search_Some sub s i r :
  search sub s i = Some r →
  ∃ d, r = (i + d)%nat ∧ (d ≤ length s)%nat ∧ startsWith sub (drop d s) = true
       ∧ ∀ d', (d' < d)%nat → startsWith sub (drop d' s) = false.
Proof.
  revert i. induction s as [|b s IH]; intros i; simpl.
  - destruct (startsWith sub []) eqn:E; [|done]. intros [= <-].
    exists 0%nat. repeat split; [lia|lia|done|lia].
  - destruct (startsWith sub (b :: s)) eqn:E.
    + intros [= <-]. exists 0%nat. repeat split; [lia|simpl;lia|done|lia].
    + intros (d & -> & Hd & Hs & Hmin)%IH. exists (S d).
      repeat split; [lia|simpl;lia|done|].
      intros [|d'] Hd'; [done|]. apply Hmin. lia.
Qed.

Lemma search_None sub s i :
  search sub s i = None → ∀ d, startsWith sub (drop d s) = false.
Proof.
  revert i. induction s as [|b s IH]; intros i; simpl.
  - destruct (startsWith sub []) eqn:E; [done|]. intros _ d. by rewrite drop_nil.
  - destruct (startsWith sub (b :: s)) eqn:E; [done|].
    intros H [|d]; [done|]. simpl. by eapply IH.
Qed.

Lemma indexOf_nat msg sub (s : nat) :
  indexOf msg sub (Z.of_nat s) =
  if decide (length sub + s ≤ length msg)%nat
  then match search sub (drop s msg) s with
       | Some i => Z.of_nat i
       | None => -1
       end
  else -1.
Proof.
  unfold indexOf. cbv zeta.
  assert ((Z.of_nat s <? 0) = false) as E by (apply Z.ltb_ge; lia).
  rewrite E. cbv iota. rewrite E, orb_false_l, Nat2Z.id.
  destruct (Z.ltb_spec (Z.of_nat (length msg))
              (Z.of_nat (length sub) + Z.of_nat s)); case_decide; try lia; done.
Qed.

(** What [indexOf] returns when called from a position inside the text. *)
Lemma indexOf_found msg sub (s : nat) r :
  indexOf msg sub (Z.of_nat s) = r → 0 ≤ r →
  ∃ i, r = Z.of_nat i ∧ (s ≤ i)%nat ∧ occurs sub msg i
       ∧ ∀ i', (s ≤ i' < i)%nat → ¬ occurs sub msg i'.
Proof.
  rewrite indexOf_nat. intros Hr Hpos.
  case_decide as E1; [|lia].
  destruct (search sub (drop s msg) s) as [i|] eqn:Es; [|lia].
  apply search_Some in Es as (d & -> & Hd & Hs & Hmin).
  rewrite length_drop in Hd. rewrite drop_drop in Hs.
  exists (s + d)%nat. split; [done|]. split; [lia|]. split.
  - apply occurs_startsWith. split; [|done].
    apply startsWith_take in Hs. 
    assert (length sub ≤ length (drop (s + d) msg))%nat as Hl.
    { rewrite <- Hs at 1. rewrite length_take. lia. }
    rewrite length_drop in Hl.
    destruct sub; simpl in *; lia.
  - intros i' Hi' [_ Ho]%occurs_startsWith.
    specialize (Hmin (i' - s)%nat). rewrite drop_drop in Hmin.
    replace (s + (i' - s))%nat with i' in Hmin by lia.
    rewrite Hmin in Ho by lia. done.
Qed.

Lemma indexOf_none msg sub (s : nat) :
  indexOf msg sub (Z.of_nat s) < 0 →
  ∀ i, (s ≤ i)%nat → ¬ occurs sub msg i.
Proof.
  rewrite indexOf_nat. intros Hr i Hi [Hlen Ho]%occurs_startsWith.
  case_decide as E1; [|lia].
  - destruct (search sub (drop s msg) s) as [i0|] eqn:Es; [lia|].
    eapply search_None with (d := (i - s)%nat) in Es.
    rewrite drop_drop in Es. replace (s + (i - s))%nat with i in Es by lia.
    congruence.
Qed.

Lemma fill_x_length k msg start n : length (fill_x k msg start n) = length msg.
Proof.
  revert msg n. induction k as [|k IH]; intros msg n; simpl; [done|].
  by rewrite IH, length_insert.
Qed.

Lemma fill_x_lookup k msg (s n : nat) j :
  fill_x k msg (Z.of_nat s) (Z.of_nat n) !! j =
  if decide ((s + n ≤ j < s + n + k)%nat ∧ (j < length msg)%nat)
  then Some QChar_x else msg !! j.
Proof.
  revert msg n. induction k as [|k IH]; intros msg n; simpl.
  - case_decide; [lia|done].
  - replace (Z.of_nat n + 1) with (Z.of_nat (S n)) by lia.
    rewrite IH, length_insert.
    replace (Z.to_nat (Z.of_nat s + Z.of_nat n)) with (s + n)%nat by lia.
    destruct (decide (j = (s + n)%nat)) as [->|Hne].
    + destruct (decide (s + n < length msg)%nat).
      * rewrite list_lookup_insert_eq by done.
        repeat case_decide; try lia; done.
      * rewrite list_insert_ge by lia.
        repeat case_decide; try lia; done.
    + rewrite list_lookup_insert_ne by done.
      repeat case_decide; try lia; done.
Qed.

Lemma mask_length msg start chars : length (mask msg start chars) = length msg.
Proof. apply fill_x_length. Qed.

Lemma mask_lookup msg (s : nat) chars j :
  (s + Z.to_nat chars ≤ length msg)%nat →
  mask msg (Z.of_nat s) chars !! j =
  if decide (s ≤ j < s + Z.to_nat chars)%nat then Some QChar_x else msg !! j.
Proof.
  intros Hlen. unfold mask. change 0 with (Z.of_nat 0).
  rewrite fill_x_lookup. repeat case_decide; try lia; done.
Qed.

Lemma elide_post_stop sub n s msg :
  (∀ i, (s ≤ i)%nat → occurs sub msg i → (length msg < i + length sub + n)%nat) →
  elide_post sub n s msg msg.
Proof.
  intros Hstop. split; [done|done|].
  intros _ i Hi Ho Hlen. apply Hstop in Ho; [lia|done].
Qed.

Lemma overlap_border sub out i0 i :
  occurs sub out i0 → occurs sub out i → (i0 < i < i0 + length sub)%nat →
  ¬ unbordered sub.
Proof.
  intros [_ H0]%occurs_lookup [_ H1]%occurs_lookup Hi Hunb.
  apply (Hunb (i0 + length sub - i)%nat); [lia|].
  apply list_eq. intros m.
  destruct (decide (m < i0 + length sub - i)%nat) as [Hm|Hm].
  - rewrite lookup_take_lt, lookup_drop by done.
    rewrite <- H1 by lia. rewrite <- H0 by lia. f_equal. lia.
  - rewrite lookup_take_ge by lia. symmetry. apply lookup_ge_None.
    rewrite length_drop. lia.
Qed.

Lemma elide_loop_post fuel msg sub chars (s : nat) :
  sub ≠ [] → 0 ≤ chars → (s ≤ length msg)%nat → (length msg - s < fuel)%nat →
  ∃ out, elide_loop fuel msg sub chars (Z.of_nat s) = Some out
         ∧ elide_post sub (Z.to_nat chars) s msg out.
Proof.
  intros Hne Hchars.
  pose proof (Z2Nat.id chars Hchars) as Hn.
  set (n := Z.to_nat chars) in *. clearbody n. revert msg s.
  induction fuel as [|fuel IH]; intros msg s Hs Hfuel; [lia|].
  assert (0 < length sub)%nat as Hsub by (destruct sub; [done|simpl; lia]).
  simpl. set (r := indexOf msg sub (Z.of_nat s)).
  destruct (Z.ltb_spec r 0) as [Hr|Hr]; simpl.
  { eexists; split; [done|]. apply elide_post_stop. intros i Hi Ho.
    by apply (indexOf_none msg sub s) in Ho. }
  destruct (indexOf_found msg sub s r eq_refl Hr) as (i0 & Hr0 & Hi0 & Ho0 & Hmin).
  destruct (Z.ltb_spec (Z.of_nat (length msg))
              (r + Z.of_nat (length sub) + chars)) as [Hshort|Hroom].
  { eexists; split; [done|]. apply elide_post_stop. intros i Hi Ho.
    destruct (decide (i < i0)%nat); [by destruct (Hmin i)|lia]. }
  set (s' := (i0 + length sub)%nat).
  replace (r + Z.of_nat (length sub)) with (Z.of_nat s') by lia.
  set (msg' := mask msg (Z.of_nat s') chars).
  assert (length msg' = length msg) as Hlen' by apply mask_length.
  assert (∀ j, msg' !! j =
    if decide (s' ≤ j < s' + n)%nat then Some QChar_x else msg !! j) as F1.
  { intros j. subst msg'. rewrite mask_lookup by lia.
    by replace (Z.to_nat chars) with n by lia. }
  destruct (IH msg' s') as (out & Hout & [Plen Pch Pm]); [lia|lia|].
  exists out. split; [done|].
  assert (∀ j, (j < s' + length sub)%nat → out !! j = msg' !! j) as F2.
  { intros j Hj. destruct (decide (out !! j = msg' !! j)) as [|Hd]; [done|].
    apply Pch in Hd as (i & ? & ? & ? & ? & ?). lia. }
  assert (∀ j, (j < s')%nat → out !! j = msg !! j) as F3.
  { intros j Hj. rewrite F2, F1 by lia. case_decide; [lia|done]. }
  assert (occurs sub out i0) as F4.
  { apply occurs_lookup. split; [destruct Ho0; lia|].
    intros k Hk. rewrite F3 by lia. by apply occurs_lookup in Ho0 as [_ ->]. }
  assert (masked_after sub out n i0) as F5.
  { intros j Hj. destruct (decide (out !! j = msg' !! j)) as [->|Hd].
    - rewrite F1. case_decide; [done|lia].
    - apply Pch in Hd as (i & _ & _ & _ & Hw & Hm). by apply Hm. }
  split.
  - lia.
  - intros j Hj. destruct (decide (out !! j = msg' !! j)) as [He|Hd].
    + exists i0. rewrite He, F1 in Hj. case_decide; [|done].
      split; [lia|]. split; [done|]. split; [lia|]. split; [lia|done].
    + apply Pch in Hd as (i & ? & ? & ? & ? & ?). exists i.
      split; [lia|]. split; [done|]. split; [lia|]. split; [lia|done].
  - intros Hunb i Hi Ho Hlen.
    destruct (decide (s' ≤ i)%nat) as [|Hlt]; [by apply Pm|].
    destruct (decide (i = i0)) as [->|Hne0]; [done|].
    destruct (decide (i < i0)%nat) as [Hlt0|Hge0].
    + destruct (Hmin i); [lia|]. apply occurs_lookup.
      apply occurs_lookup in Ho as [Hb Ho]. split; [lia|].
      intros k Hk. rewrite <- F3 by lia. by apply Ho.
    + destruct (overlap_border sub out i0 i); try done. lia.
Qed.

Lemma elide_loop_fuel_mono fuel fuel' msg sub chars start out :
  elide_loop fuel msg sub chars start = Some out → (fuel ≤ fuel')%nat →
  elide_loop fuel' msg sub chars start = Some out.
Proof.
  revert fuel' msg start.
  induction fuel as [|fuel IH]; intros [|fuel'] msg start; simpl; try done; [lia|].
  destruct (_ || _); [done|]. intros H Hle. apply IH; [done|lia].
Qed.

Lemma elidePattern_post msg sub chars :
  sub ≠ [] → 0 ≤ chars →
  ∃ out, elidePattern msg sub chars = Some out
         ∧ elide_post sub (Z.to_nat chars) 0 msg out.
Proof.
  intros Hne Hchars.
  apply (elide_loop_post (S (length msg)) msg sub chars 0); [done|done|lia|lia].
Qed.

(** More iterations than [msg.length() + 1] change nothing. *)
Lemma elidePattern_terminates msg sub chars fuel :
  sub ≠ [] → 0 ≤ chars → (length msg < fuel)%nat →
  is_Some (elidePattern msg sub chars)
  ∧ elidePattern_fuel fuel msg sub chars = elidePattern msg sub chars.
Proof.
  intros Hne Hchars Hfuel.
  destruct (elidePattern_post msg sub chars) as (out & Hout & _); [done..|].
  rewrite Hout. split; [by eexists|].
  eapply elide_loop_fuel_mono; [exact Hout|lia].
Qed.

Lemma indexOf_empty msg (s : nat) :
  (s ≤ length msg)%nat → indexOf msg [] (Z.of_nat s) = Z.of_nat s.
Proof.
  intros Hs. rewrite indexOf_nat. simpl. case_decide; [|lia].
  by destruct (drop s msg).
Qed.

Lemma elide_loop_empty fuel msg chars (s : nat) :
  (s ≤ length msg)%nat → Z.of_nat s + chars ≤ Z.of_nat (length msg) →
  elide_loop fuel msg [] chars (Z.of_nat s) = None.
Proof.
  revert msg. induction fuel as [|fuel IH]; intros msg Hs Hc; simpl; [done|].
  rewrite indexOf_empty by done.
  destruct (Z.ltb_spec (Z.of_nat s) 0); [lia|].
  destruct (Z.ltb_spec (Z.of_nat (length msg)) (Z.of_nat s + Z.of_nat 0 + chars));
    [lia|]. simpl.
  replace (Z.of_nat s + Z.of_nat 0) with (Z.of_nat s) by lia.
  apply IH; rewrite mask_length; done.
Qed.

(** With an empty pattern [indexOf] returns its starting position and the
    loop never advances: no number of iterations reaches the [break]. *)
Lemma elidePattern_empty_diverges fuel msg chars :
  chars ≤ Z.of_nat (length msg) →
  elidePattern_fuel fuel msg [] chars = None.
Proof.
  intros Hc. apply (elide_loop_empty fuel msg chars 0); [lia|lia].
Qed.

Lemma unborderedb_sound p : unborderedb p = true → unbordered p.
Proof.
  unfold unborderedb, unbordered. rewrite forallb_forall. intros H k Hk.
  specialize (H k). rewrite in_seq in H.
  apply negb_true_iff, bool_decide_eq_false in H; [done|lia].
Qed.

Lemma x_isolatedb_sound p : x_isolatedb p = true → x_isolated p.
Proof.
  unfold x_isolatedb, x_isolated. rewrite andb_true_iff, forallb_forall.
  intros [H0 H]. split.
  - by apply negb_true_iff, bool_decide_eq_false in H0.
  - intros k Hk. specialize (H k). rewrite in_seq in H.
    apply lookup_lt_Some in Hk as Hlt.
    rewrite orb_true_iff, negb_true_iff, bool_decide_eq_false in H.
    destruct H as [H|H]; [lia|done|].
    destruct (p !! S k) as [c|]; [|done].
    exists c. split; [done|]. by apply negb_true_iff, bool_decide_eq_false in H.
Qed.

Lemma token_eq_unbordered : unbordered token_eq.
Proof. apply unborderedb_sound. reflexivity. Qed.

Lemma token_3D_unbordered : unbordered token_3D.
Proof. apply unborderedb_sound. reflexivity. Qed.

Lemma token_eq_x_isolated : x_isolated token_eq.
Proof. apply x_isolatedb_sound. reflexivity. Qed.

Lemma token_3D_x_isolated : x_isolated token_3D.
Proof. apply x_isolatedb_sound. reflexivity. Qed.

Lemma elide_post_x_runs sub n s msg out :
  elide_post sub n s msg out → x_runs n msg out.
Proof.
  intros [Hlen Hch _]. split; [done|]. intros j Hj.
  apply Hch in Hj as (i & _ & _ & _ & Hw & Hm).
  exists (i + length sub)%nat. split; [lia|]. intros j' Hj'. apply Hm. lia.
Qed.

(** An occurrence of an x-isolated pattern cannot touch a run of two or more
    ['x']: masking neither creates such an occurrence nor leaves one that it
    has written into. *)
Lemma x_runs_occurs n msg out sub i :
  (2 ≤ n)%nat → x_isolated sub → x_runs n msg out →
  occurs sub out i →
  occurs sub msg i ∧ ∀ k, (k < length sub)%nat → out !! (i + k)%nat = msg !! (i + k)%nat.
Proof.
  intros Hn [Hx0 Hx] [Hlen Hruns] Ho.
  assert (∀ k, (k < length sub)%nat → out !! (i + k)%nat = msg !! (i + k)%nat) as Hsame.
  { intros k Hk.
    destruct (decide (out !! (i + k)%nat = msg !! (i + k)%nat)) as [|Hd]; [done|].
    exfalso. apply Hruns in Hd as (t & Ht & Hrun).
    apply occurs_lookup in Ho as [Hb Ho].
    destruct (decide (t ≤ i)%nat) as [Hti|Hti].
    - apply Hx0. rewrite <- (Ho 0%nat) by lia. rewrite Nat.add_0_r.
      apply Hrun. lia.
    - destruct (Hx (t - i)%nat) as (c & Hc & Hcx).
      { rewrite <- Ho by lia. replace (i + (t - i))%nat with t by lia.
        apply Hrun. lia. }
      apply lookup_lt_Some in Hc as Hlt.
      rewrite <- Ho in Hc by lia.
      rewrite Hrun in Hc by lia. congruence. }
  split; [|done].
  apply occurs_lookup. apply occurs_lookup in Ho as [Hb Ho].
  split; [lia|]. intros k Hk. rewrite <- Hsame by done. by apply Ho.
Qed.




(** C1 (as amended): [processLog] terminates and keeps the length of the
    message.  In its result every occurrence of a token pattern is original
    text (the pattern is kept), and when at least 20 code units follow it,
    the 20 code units after it are all ['x'].  A code unit that changed
    became ['x'] and lies among the 20 code units after an occurrence of a
    token pattern in the original message that has at least 20 code units
    after it; nothing else changes.  So a message in which no occurrence of
    a token pattern has 20 code units after it is returned as it is. *)
Theorem processLog_masks_result_occurrences (msg : QString) :
  ∃ out, processLog msg = Some out
    ∧ length out = length msg
    ∧ (∀ sub i, sub ∈ [token_eq; token_3D] → occurs sub out i →
         occurs sub msg i
         ∧ ((i + length sub + 20 ≤ length out)%nat → masked_after sub out 20 i))
    ∧ (∀ j, out !! j ≠ msg !! j →
         out !! j = Some QChar_x
         ∧ ∃ sub i, sub ∈ [token_eq; token_3D] ∧ occurs sub msg i
                    ∧ (i + length sub + 20 ≤ length msg)%nat
                    ∧ (i + length sub ≤ j < i + length sub + 20)%nat)
    ∧ ((∀ sub i, sub ∈ [token_eq; token_3D] → occurs sub msg i →
          (length msg < i + length sub + 20)%nat) →
       out = msg).
Proof.
  cut (∃ out, processLog msg = Some out
    ∧ length out = length msg
    ∧ (∀ sub i, sub ∈ [token_eq; token_3D] → occurs sub out i →
         occurs sub msg i
         ∧ ((i + length sub + 20 ≤ length out)%nat → masked_after sub out 20 i))
    ∧ (∀ j, out !! j ≠ msg !! j →
         out !! j = Some QChar_x
         ∧ ∃ sub i, sub ∈ [token_eq; token_3D] ∧ occurs sub msg i
                    ∧ (i + length sub + 20 ≤ length msg)%nat
                    ∧ (i + length sub ≤ j < i + length sub + 20)%nat)).
  { intros (out & Hout & Hlen & Hocc & Hch). exists out.
    split; [done|]. split; [done|]. split; [done|]. split; [done|].
    intros Hshort. apply list_eq. intros j.
    destruct (decide (out !! j = msg !! j)) as [|Hd]; [done|]. exfalso.
    apply Hch in Hd as (_ & sub & i & Hsub & Ho & Hroom & _).
    specialize (Hshort sub i Hsub Ho). lia. }
  unfold processLog.
  destruct (elidePattern_post msg token_eq 20) as (mid & Hmid & P1); [done|lia|].
  destruct (elidePattern_post mid token_3D 20) as (out & Hout & P2); [done|lia|].
  rewrite Hmid. simpl. rewrite Hout. exists out.
  change (Z.to_nat 20) with 20%nat in *.
  pose proof (elide_post_x_runs _ _ _ _ _ P1) as R1.
  pose proof (elide_post_x_runs _ _ _ _ _ P2) as R2.
  destruct P1 as [L1 Ch1 M1], P2 as [L2 Ch2 M2].
  assert (∀ sub i, sub ∈ [token_eq; token_3D] → occurs sub out i →
            occurs sub mid i ∧ occurs sub msg i) as Horig.
  { intros sub i Hsub Ho.
    assert (x_isolated sub) as Hiso.
    { apply elem_of_cons in Hsub as [->| Hsub]; [apply token_eq_x_isolated|].
      apply list_elem_of_singleton in Hsub as ->. apply token_3D_x_isolated. }
    destruct (x_runs_occurs 20 mid out sub i) as [Ho1 _]; [lia|done..|].
    destruct (x_runs_occurs 20 msg mid sub i) as [Ho0 _]; [lia|done..|].
    done. }
  split; [done|]. split; [congruence|]. split.
  - intros sub i Hsub Ho. destruct (Horig sub i Hsub Ho) as [Hom Ho0].
    split; [done|]. intros Hb.
    apply elem_of_cons in Hsub as [->| Hsub].
    + intros j Hj. destruct (decide (out !! j = mid !! j)) as [->|Hd].
      * apply (M1 token_eq_unbordered i); [lia|done|lia|done].
      * apply Ch2 in Hd as (i' & _ & _ & _ & Hw & Hma). by apply Hma.
    + apply list_elem_of_singleton in Hsub as ->.
      apply (M2 token_3D_unbordered i); [lia|done|lia].
  - intros j Hj. destruct (decide (out !! j = mid !! j)) as [He|Hd].
    + rewrite He in Hj |- *. apply Ch1 in Hj as (i & _ & Ho & Hb & Hw & Hma).
      split; [by apply Hma|]. exists token_eq, i.
      split; [repeat constructor|]. split; [|done].
      by destruct (x_runs_occurs 20 msg mid token_eq i);
        [lia|apply token_eq_x_isolated|done|done|].
    + apply Ch2 in Hd as (i & _ & Ho & Hb & Hw & Hma).
      split; [by apply Hma|]. exists token_3D, i.
      split; [repeat constructor|]. split; [|split; [lia|done]].
      apply (Horig token_3D i); [repeat constructor|done].
Qed.

Lemma processLog_masks_result_occurrences_witness :
  ∃ out,
    processLog (qs "GET /a?X-Plex-Token=abcdefghijklmnopqrstuvwxyz") = Some out
    ∧ occurs token_eq out 7
    ∧ masked_after token_eq out 20 7.
Proof.
  destruct (processLog_masks_result_occurrences
              (qs "GET /a?X-Plex-Token=abcdefghijklmnopqrstuvwxyz"))
    as (out & Hout & Hlen & Hocc & _).
  assert (out = qs "GET /a?X-Plex-Token=xxxxxxxxxxxxxxxxxxxxuvwxyz") as Heq.
  { assert (processLog (qs "GET /a?X-Plex-Token=abcdefghijklmnopqrstuvwxyz")
            = Some (qs "GET /a?X-Plex-Token=xxxxxxxxxxxxxxxxxxxxuvwxyz")) as Hrun
      by reflexivity.
    rewrite Hrun in Hout. by injection Hout. }
  assert (occurs token_eq out 7) as Ho.
  { rewrite Heq. split; [vm_compute; lia|reflexivity]. }
  exists out. split; [exact Hout|]. split; [exact Ho|].
  destruct (Hocc token_eq 7%nat) as [_ Hmask]; [repeat constructor|exact Ho|].
  apply Hmask. rewrite Heq. vm_compute. lia.
Defined.

(** C1 as stated fails: a token value of 19 characters at the end of the
    message is persisted as it is. *)
Lemma processLog_leaves_short_token :
  occurs token_eq (qs "GET /sync?X-Plex-Token=abcdefghijklmnopqrs") 10
  ∧ processLog (qs "GET /sync?X-Plex-Token=abcdefghijklmnopqrs")
    = Some (qs "GET /sync?X-Plex-Token=abcdefghijklmnopqrs")
  ∧ ¬ masked_after token_eq (qs "GET /sync?X-Plex-Token=abcdefghijklmnopqrs") 19 10.
Proof.
  split; [split; [vm_compute; lia|reflexivity]|].
  split; [reflexivity|].
  intros H. specialize (H 23%nat). vm_compute in H. by discriminate H; lia.
Qed.

(** *** Further properties of [elidePattern] and [processLog] *)

Lemma elide_loop_S fuel msg sub chars start :
  elide_loop (S fuel) msg sub chars start
  = if (indexOf msg sub start <? 0)
       || (Z.of_nat (length msg)
           <? indexOf msg sub start + Z.of_nat (length sub) + chars)
    then Some msg
    else elide_loop fuel
           (mask msg (indexOf msg sub start + Z.of_nat (length sub)) chars)
           sub chars (indexOf msg sub start + Z.of_nat (length sub)).
Proof. reflexivity. Qed.

(** With a count that is not positive the inner loop writes nothing. *)
Lemma elide_loop_nonpositive fuel msg sub chars (s : nat) :
  sub ≠ [] → chars ≤ 0 → (s ≤ length msg)%nat → (length msg - s < fuel)%nat →
  elide_loop fuel msg sub chars (Z.of_nat s) = Some msg.
Proof.
  intros Hne Hchars. revert s.
  induction fuel as [|fuel IH]; intros s Hs Hfuel; [lia|].
  assert (0 < length sub)%nat as Hsub by (destruct sub; [done|simpl; lia]).
  rewrite elide_loop_S. set (r := indexOf msg sub (Z.of_nat s)).
  destruct (Z.ltb_spec r 0) as [Hr|Hr]; [done|].
  destruct (Z.ltb_spec (Z.of_nat (length msg))
              (r + Z.of_nat (length sub) + chars)) as [|Hroom]; [done|].
  simpl.
  destruct (indexOf_found msg sub s r eq_refl Hr) as (i0 & Hr0 & Hi0 & [Hb _] & _).
  unfold mask. replace (Z.to_nat chars) with 0%nat by lia. simpl.
  replace (r + Z.of_nat (length sub)) with (Z.of_nat (i0 + length sub)) by lia.
  apply IH; lia.
Qed.

(** A message in which every occurrence from [s] on that has room is already
    masked is returned as it is. *)
Lemma elide_loop_fixed fuel msg sub chars (s : nat) :
  sub ≠ [] → 0 ≤ chars → (s ≤ length msg)%nat → (length msg - s < fuel)%nat →
  (∀ i, (s ≤ i)%nat → occurs sub msg i →
        (i + length sub + Z.to_nat chars ≤ length msg)%nat →
        masked_after sub msg (Z.to_nat chars) i) →
  elide_loop fuel msg sub chars (Z.of_nat s) = Some msg.
Proof.
  intros Hne Hchars. revert s.
  induction fuel as [|fuel IH]; intros s Hs Hfuel Hfix; [lia|].
  assert (0 < length sub)%nat as Hsub by (destruct sub; [done|simpl; lia]).
  rewrite elide_loop_S. set (r := indexOf msg sub (Z.of_nat s)).
  destruct (Z.ltb_spec r 0) as [Hr|Hr]; [done|].
  destruct (Z.ltb_spec (Z.of_nat (length msg))
              (r + Z.of_nat (length sub) + chars)) as [|Hroom]; [done|].
  simpl.
  destruct (indexOf_found msg sub s r eq_refl Hr) as (i0 & Hr0 & Hi0 & Ho & _).
  replace (r + Z.of_nat (length sub)) with (Z.of_nat (i0 + length sub)) by lia.
  assert (mask msg (Z.of_nat (i0 + length sub)) chars = msg) as ->.
  { apply list_eq. intros j. rewrite mask_lookup by lia.
    case_decide as Hj; [|done]. symmetry. apply (Hfix i0); [done|done|lia|lia]. }
  destruct Ho as [Hb _].
  apply IH; [lia|lia|]. intros i Hi. apply Hfix. lia.
Qed.

Lemma processLog_stages msg :
  ∃ mid out,
    elidePattern msg token_eq 20 = Some mid
    ∧ elidePattern mid token_3D 20 = Some out
    ∧ processLog msg = Some out
    ∧ elide_post token_eq 20 0 msg mid
    ∧ elide_post token_3D 20 0 mid out.
Proof.
  destruct (elidePattern_post msg token_eq 20) as (mid & Hmid & P1); [done|lia|].
  destruct (elidePattern_post mid token_3D 20) as (out & Hout & P2); [done|lia|].
  exists mid, out. unfold processLog. rewrite Hmid. simpl. by rewrite Hout.
Qed.

(** X1: with a non-empty pattern and a count with which no sum of the loop
    leaves [int] (negative counts included), the loop of [elidePattern]
    ends: [msg.length() + 1] iterations are always enough, and any larger
    bound gives the same result. *)
Theorem elidePattern_ends_for_nonempty_pattern msg sub chars fuel :
  sub ≠ [] → fits_int msg chars → (length msg < fuel)%nat →
  ∃ out, elidePattern msg sub chars = Some out
         ∧ elidePattern_fuel fuel msg sub chars = Some out.
Proof.
  intros Hne _ Hfuel. destruct (Z.le_gt_cases 0 chars) as [Hpos|Hneg].
  - destruct (elidePattern_terminates msg sub chars fuel) as [[out Hout] Heq];
      [done..|].
    exists out. by rewrite Heq.
  - exists msg. split.
    + apply (elide_loop_nonpositive (S (length msg)) msg sub chars 0); [done|lia..].
    + apply (elide_loop_nonpositive fuel msg sub chars 0); [done|lia..].
Qed.

Lemma elidePattern_ends_for_nonempty_pattern_witness :
  ∃ out, elidePattern (qs "a=1&X-Plex-Token=0123456789abcdefghijklmn") token_eq 20
         = Some out
         ∧ elidePattern_fuel 100 (qs "a=1&X-Plex-Token=0123456789abcdefghijklmn")
             token_eq 20 = Some out.
Proof.
  apply (elidePattern_ends_for_nonempty_pattern
           (qs "a=1&X-Plex-Token=0123456789abcdefghijklmn") token_eq 20 100).
  - done.
  - vm_compute. split; discriminate.
  - vm_compute. lia.
Defined.

(** X2: with an empty pattern [indexOf] returns the position it was given, so
    the loop never advances: when the count fits into the message no number
    of iterations reaches the [break]; when it does not, the first test
    leaves the loop and the message is returned as it is. *)
Theorem elidePattern_empty_pattern msg chars :
  (chars ≤ Z.of_nat (length msg) →
   ∀ fuel, elidePattern_fuel fuel msg [] chars = None)
  ∧ (Z.of_nat (length msg) < chars →
     ∀ fuel, elidePattern_fuel (S fuel) msg [] chars = Some msg).
Proof.
  split.
  - intros Hc fuel. apply (elide_loop_empty fuel msg chars 0); lia.
  - intros Hc fuel. unfold elidePattern_fuel. rewrite elide_loop_S.
    assert (indexOf msg [] 0 = 0) as -> by (apply (indexOf_empty msg 0); lia).
    cbn [length orb Z.ltb Z.compare Z.of_nat Z.add].
    by destruct (Z.ltb_spec (Z.of_nat (length msg)) (0 + Z.of_nat 0 + chars));
      [|lia].
Qed.

Lemma elidePattern_empty_pattern_witness :
  elidePattern_fuel 1000 (qs "abc") [] 3 = None
  ∧ elidePattern_fuel 1 (qs "abc") [] 4 = Some (qs "abc").
Proof.
  destruct (elidePattern_empty_pattern (qs "abc") 3) as [H3 _].
  destruct (elidePattern_empty_pattern (qs "abc") 4) as [_ H4].
  split.
  - apply H3. vm_compute. discriminate.
  - apply (H4 ltac:(vm_compute; reflexivity) 0%nat).
Defined.

(** X3: a message too short to hold the pattern followed by [chars] code
    units is never modified, for any pattern and any count with which no sum
    of the loop leaves [int]. *)
Theorem elidePattern_short_message_unchanged msg sub chars :
  fits_int msg chars →
  Z.of_nat (length msg) < Z.of_nat (length sub) + chars →
  elidePattern msg sub chars = Some msg.
Proof.
  intros _ Hshort. unfold elidePattern, elidePattern_fuel. rewrite elide_loop_S.
  destruct (Z.ltb_spec (indexOf msg sub 0) 0) as [|Hr]; [done|].
  by destruct (Z.ltb_spec (Z.of_nat (length msg))
                 (indexOf msg sub 0 + Z.of_nat (length sub) + chars)); [|lia].
Qed.

Lemma elidePattern_short_message_unchanged_witness :
  elidePattern (qs "X-Plex-Token=0123456789abcdefghi") token_eq 20
  = Some (qs "X-Plex-Token=0123456789abcdefghi").
Proof.
  apply (elidePattern_short_message_unchanged
           (qs "X-Plex-Token=0123456789abcdefghi") token_eq 20).
  - vm_compute. split; discriminate.
  - vm_compute. reflexivity.
Defined.

(** X4: with a count of zero or less and a non-empty pattern [elidePattern]
    walks over the occurrences and writes nothing. *)
Theorem elidePattern_nonpositive_count_unchanged msg sub chars :
  sub ≠ [] → chars ≤ 0 → elidePattern msg sub chars = Some msg.
Proof.
  intros Hne Hc.
  apply (elide_loop_nonpositive (S (length msg)) msg sub chars 0); [done|lia..].
Qed.

Lemma elidePattern_nonpositive_count_unchanged_witness :
  elidePattern (qs "ab-ab-ab") (qs "ab") (-3) = Some (qs "ab-ab-ab").
Proof.
  apply (elidePattern_nonpositive_count_unchanged (qs "ab-ab-ab") (qs "ab") (-3)).
  - done.
  - lia.
Defined.

(** X5: for any non-empty pattern, when the first occurrence of the pattern
    in the message has at least [chars] code units after it, the result
    keeps everything up to the end of that occurrence, has ['x'] in the
    [chars] code units after it, has the length of the message, and differs
    from the message only where it has ['x']. *)
Theorem elidePattern_masks_first_occurrence msg sub chars i0 :
  sub ≠ [] → 0 ≤ chars →
  occurs sub msg i0 →
  (∀ i, (i < i0)%nat → ¬ occurs sub msg i) →
  (i0 + length sub + Z.to_nat chars ≤ length msg)%nat →
  ∃ out, elidePattern msg sub chars = Some out
    ∧ length out = length msg
    ∧ (∀ j, (j < i0 + length sub)%nat → out !! j = msg !! j)
    ∧ masked_after sub out (Z.to_nat chars) i0
    ∧ (∀ j, out !! j = msg !! j ∨ out !! j = Some QChar_x).
Proof.
  intros Hne Hchars Ho0 Hfirst Hroom.
  assert (0 < length sub)%nat as Hsub by (destruct sub; [done|simpl; lia]).
  unfold elidePattern, elidePattern_fuel. rewrite elide_loop_S.
  change 0 with (Z.of_nat 0). set (r := indexOf msg sub (Z.of_nat 0)).
  assert (r = Z.of_nat i0) as Hr.
  { destruct (Z.lt_ge_cases r 0) as [Hneg|Hpos].
    - destruct (indexOf_none msg sub 0 Hneg i0); [lia|done].
    - destruct (indexOf_found msg sub 0 r eq_refl Hpos) as (i & -> & _ & Ho & Hmin).
      destruct (decide (i < i0)%nat); [by destruct (Hfirst i)|].
      destruct (decide (i0 < i)%nat); [destruct (Hmin i0); [lia|done]|].
      f_equal. lia. }
  rewrite Hr.
  destruct (Z.ltb_spec (Z.of_nat i0) (Z.of_nat 0)); [lia|].
  destruct (Z.ltb_spec (Z.of_nat (length msg))
              (Z.of_nat i0 + Z.of_nat (length sub) + chars)); [lia|].
  simpl. set (s' := (i0 + length sub)%nat).
  replace (Z.of_nat i0 + Z.of_nat (length sub)) with (Z.of_nat s') by lia.
  set (msg' := mask msg (Z.of_nat s') chars).
  assert (length msg' = length msg) as Hlen' by apply mask_length.
  assert (∀ j, msg' !! j =
    if decide (s' ≤ j < s' + Z.to_nat chars)%nat then Some QChar_x else msg !! j)
    as F1.
  { intros j. subst msg'. by rewrite mask_lookup by lia. }
  destruct (elide_loop_post (length msg) msg' sub chars s')
    as (out & Hout & [Plen Pch Pm]); [done|done|lia|lia|].
  exists out. split; [exact Hout|]. split; [lia|].
  assert (∀ j, out !! j ≠ msg' !! j →
               out !! j = Some QChar_x ∧ (s' + length sub ≤ j)%nat) as Hch.
  { intros j Hj. apply Pch in Hj as (i & ? & ? & ? & ? & Hm).
    split; [by apply Hm|lia]. }
  split; [|split].
  - intros j Hj. destruct (decide (out !! j = msg' !! j)) as [->|Hd].
    + rewrite F1. case_decide; [lia|done].
    + apply Hch in Hd. lia.
  - intros j Hj. destruct (decide (out !! j = msg' !! j)) as [->|Hd].
    + rewrite F1. case_decide; [done|lia].
    + by apply Hch in Hd as [? _].
  - intros j. destruct (decide (out !! j = msg' !! j)) as [->|Hd].
    + rewrite F1. case_decide; [by right|by left].
    + right. by apply Hch in Hd as [? _].
Qed.

Lemma elidePattern_masks_first_occurrence_witness :
  ∃ out, elidePattern (qs "aXaXbcdef") (qs "aXa") 2 = Some out
    ∧ length out = 9%nat
    ∧ masked_after (qs "aXa") out 2 0.
Proof.
  destruct (elidePattern_masks_first_occurrence (qs "aXaXbcdef") (qs "aXa") 2 0)
    as (out & Hout & Hlen & _ & Hm & _).
  - done.
  - lia.
  - split; [vm_compute; lia|reflexivity].
  - intros i Hi. lia.
  - vm_compute. lia.
  - exists out. split; [exact Hout|]. split; [exact Hlen|exact Hm].
Defined.

(** X6: redacting a redacted message changes nothing. *)
Theorem processLog_idempotent msg out :
  processLog msg = Some out → processLog out = Some out.
Proof.
  intros Hrun.
  destruct (processLog_stages msg) as (mid & out' & _ & _ & Hrun' & P1 & P2).
  assert (out' = out) as -> by congruence.
  pose proof (elide_post_x_runs _ _ _ _ _ P2) as R2.
  destruct P1 as [L1 Ch1 M1], P2 as [L2 Ch2 M2].
  change (Z.to_nat 20) with 20%nat in *.
  assert (elidePattern out token_eq 20 = Some out) as E1.
  { apply (elide_loop_fixed (S (length out)) out token_eq 20 0); [done|lia..|].
    change (Z.to_nat 20) with 20%nat.
    intros i _ Ho Hroom j Hj.
    destruct (x_runs_occurs 20 mid out token_eq i) as [Hom _];
      [lia|apply token_eq_x_isolated|done|done|].
    destruct (decide (out !! j = mid !! j)) as [->|Hd].
    - apply (M1 token_eq_unbordered i); [lia|done|lia|done].
    - apply Ch2 in Hd as (i' & _ & _ & _ & Hw & Hma). by apply Hma. }
  assert (elidePattern out token_3D 20 = Some out) as E2.
  { apply (elide_loop_fixed (S (length out)) out token_3D 20 0); [done|lia..|].
    change (Z.to_nat 20) with 20%nat.
    intros i _ Ho Hroom. apply (M2 token_3D_unbordered i); [lia|done|lia]. }
  unfold processLog. rewrite E1. simpl. exact E2.
Qed.

Lemma processLog_idempotent_witness :
  processLog (qs "GET /a?X-Plex-Token=xxxxxxxxxxxxxxxxxxxxuvwxyz")
  = Some (qs "GET /a?X-Plex-Token=xxxxxxxxxxxxxxxxxxxxuvwxyz").
Proof.
  apply (processLog_idempotent
           (qs "GET /a?X-Plex-Token=abcdefghijklmnopqrstuvwxyz")).
  reflexivity.
Defined.

(** X7: a message in which no token pattern is followed by 20 code units, in
    particular one without a token pattern, is returned as it is. *)
Theorem processLog_unchanged_without_maskable_token msg :
  (∀ sub i, sub ∈ [token_eq; token_3D] → occurs sub msg i →
            (length msg < i + length sub + 20)%nat) →
  processLog msg = Some msg.
Proof.
  intros Hnone.
  assert (∀ sub, sub ∈ [token_eq; token_3D] → sub ≠ [] →
                 elidePattern msg sub 20 = Some msg) as Hpass.
  { intros sub Hsub Hne.
    apply (elide_loop_fixed (S (length msg)) msg sub 20 0); [done|lia..|].
    change (Z.to_nat 20) with 20%nat.
    intros i _ Ho Hroom. apply (Hnone sub i Hsub) in Ho. lia. }
  unfold processLog. rewrite (Hpass token_eq); [|repeat constructor|done].
  simpl. apply Hpass; [repeat constructor|done].
Qed.

Lemma processLog_unchanged_without_maskable_token_witness :
  processLog (qs "a=1&X-Plex-Token=abc") = Some (qs "a=1&X-Plex-Token=abc").
Proof.
  apply (processLog_unchanged_without_maskable_token (qs "a=1&X-Plex-Token=abc")).
  intros sub i Hsub _.
  apply elem_of_cons in Hsub as [->|Hsub].
  - simpl. lia.
  - apply list_elem_of_singleton in Hsub as ->. simpl. lia.
Defined.

End RedactionFacts.

Module CommandLineFacts.
Import CommandLine.
Local Open Scope nat_scope.

(** More entries than free slots: the loop leaves the array. *)
Lemma rebuild_overflow argList iarg newArgs :
  iarg ≤ length newArgs → length newArgs < iarg + length argList →
  rebuild argList iarg newArgs = None.
Proof.
  revert iarg newArgs.
  induction argList as [|a rest IH]; intros iarg newArgs Hi Hlen; simpl in *; [lia|].
  destruct (strcpy_malloc256 a) as [p|]; [|done]. simpl.
  unfold store. case_decide as Hlt; [|done]. simpl.
  apply IH; rewrite length_insert; lia.
Qed.

Lemma appendCommandLineArguments_overflow b toStdString argv :
  newArgs_slots < length argv + length (extra_arguments b) →
  appendCommandLineArguments b toStdString argv = None.
Proof.
  intros Hlen. unfold appendCommandLineArguments.
  rewrite rebuild_overflow; [done| |].
  - lia.
  - rewrite length_app, length_map. unfold newArgs_init.
    rewrite length_replicate. simpl. lia.
Qed.

(** Entries that fit are stored one after the other. *)
Lemma rebuild_fits argList iarg newArgs :
  iarg + length argList ≤ length newArgs →
  Forall (λ a, String.length a < 256) argList →
  rebuild argList iarg newArgs
  = Some (take iarg newArgs ++ (Some <$> argList)
          ++ drop (iarg + length argList) newArgs).
Proof.
  revert iarg newArgs.
  induction argList as [|a rest IH]; intros iarg newArgs Hlen Hshort; simpl in *.
  - by rewrite Nat.add_0_r, take_drop.
  - apply Forall_cons in Hshort as [Ha Hrest].
    unfold strcpy_malloc256. rewrite decide_True by done. simpl.
    unfold store. rewrite decide_True by lia. simpl.
    rewrite IH by (rewrite ?length_insert; done || lia). f_equal.
    rewrite (take_S_r _ _ (Some a)) by (apply list_lookup_insert_eq; lia).
    rewrite take_insert_ge by lia. rewrite drop_insert_lt by lia.
    rewrite <- app_assoc. simpl.
    by replace (iarg + S (length rest)) with (S (iarg + length rest)) by lia.
Qed.

(** When everything fits, the reader sees the original arguments, in order,
    followed by the added ones. *)
Lemma appendCommandLineArguments_fits b toStdString argv :
  length argv + length (extra_arguments b) ≤ newArgs_slots →
  Forall (λ a, String.length (toStdString a) < 256) argv →
  arguments <$> appendCommandLineArguments b toStdString argv
  = Some ((toStdString <$> argv) ++ extra_arguments b).
Proof.
  intros Hlen Hshort. unfold appendCommandLineArguments.
  rewrite rebuild_fits.
  - simpl. unfold arguments. simpl. f_equal.
    rewrite take_app_length'.
    + induction (_ ++ _) as [|x l IH]; simpl; [done|]. by f_equal.
    + by rewrite length_fmap.
  - unfold newArgs_init. rewrite length_replicate, length_app, length_map.
    simpl. lia.
  - apply Forall_app. split.
    + by apply Forall_fmap.
    + unfold extra_arguments. destruct (KONVERGO_OPENELEC b);
        repeat constructor.
Qed.

(** C6 at a vector of fifteen arguments, for every build and every
    conversion: with the two added arguments the seventeenth store is
    outside [newArgs], so the call has no defined result. *)
Theorem appendCommandLineArguments_fifteen_arguments b toStdString :
  appendCommandLineArguments b toStdString
    ("plexmediaplayer" :: replicate 14 "--flag")%string = None.
Proof.
  apply appendCommandLineArguments_overflow.
  unfold extra_arguments, newArgs_slots.
  destruct (KONVERGO_OPENELEC b); simpl; lia.
Qed.

(** An argument of 256 characters does not fit its buffer either. *)
Lemma appendCommandLineArguments_long_argument b :
  appendCommandLineArguments b (λ s, s)
    ["plexmediaplayer"%string; string_of_list_ascii (replicate 256 "a"%char)]
  = None.
Proof. reflexivity. Qed.

Example appendCommandLineArguments_small :
  arguments <$> appendCommandLineArguments Lifecycle.linux_build (λ s, s)
                  ["plexmediaplayer"; "--hidden"; "movie.mkv"]%string
  = Some ["plexmediaplayer"; "--hidden"; "movie.mkv";
          "--enable-viewport"; "--enable-viewport-meta"]%string.
Proof. reflexivity. Qed.

(** *** When the call is defined, and what it returns *)

Lemma rebuild_Some_inv argList iarg newArgs r :
  rebuild argList iarg newArgs = Some r → iarg ≤ length newArgs →
  iarg + length argList ≤ length newArgs
  ∧ Forall (λ a, String.length a < 256) argList.
Proof.
  revert iarg newArgs.
  induction argList as [|a rest IH]; intros iarg newArgs Hr Hi; simpl in *.
  - split; [lia|constructor].
  - unfold strcpy_malloc256 in Hr. case_decide as Ha; [|done]. simpl in Hr.
    unfold store in Hr. case_decide as Hlt; [|done]. simpl in Hr.
    apply IH in Hr as [Hlen Hrest]; rewrite ?length_insert in *; [|lia].
    split; [lia|by constructor].
Qed.

Lemma extra_arguments_short b :
  Forall (λ a, String.length a < 256) (extra_arguments b).
Proof. unfold extra_arguments. destruct (KONVERGO_OPENELEC b); repeat constructor. Qed.

Lemma appendCommandLineArguments_Some_fits b toStdString argv r :
  appendCommandLineArguments b toStdString argv = Some r →
  length argv + length (extra_arguments b) ≤ newArgs_slots
  ∧ Forall (λ a, String.length (toStdString a) < 256) argv.
Proof.
  intros Hr. unfold appendCommandLineArguments in Hr.
  destruct (rebuild _ 0 newArgs_init) as [newArgs|] eqn:Hre; [|done].
  apply rebuild_Some_inv in Hre as [Hlen Hshort]; [|lia].
  rewrite length_app, length_map in Hlen. unfold newArgs_init in Hlen.
  rewrite length_replicate in Hlen. split; [lia|].
  apply Forall_app in Hshort as [Hshort _]. by apply Forall_fmap in Hshort.
Qed.

Lemma appendCommandLineArguments_Some_arguments b toStdString argv r :
  appendCommandLineArguments b toStdString argv = Some r →
  arguments r = (toStdString <$> argv) ++ extra_arguments b.
Proof.
  intros Hr.
  destruct (appendCommandLineArguments_Some_fits _ _ _ _ Hr) as [Hlen Hshort].
  pose proof (appendCommandLineArguments_fits b toStdString argv Hlen Hshort) as Hargs.
  rewrite Hr in Hargs. by injection Hargs.
Qed.

(** X8: [appendCommandLineArguments] stays inside its buffers exactly when
    the original arguments and the added ones fit the sixteen slots of
    [newArgs] and every argument, as converted, is shorter than 256 bytes. *)
Theorem appendCommandLineArguments_defined_iff b toStdString argv :
  is_Some (appendCommandLineArguments b toStdString argv)
  ↔ length argv + length (extra_arguments b) ≤ newArgs_slots
    ∧ Forall (λ a, String.length (toStdString a) < 256) argv.
Proof.
  split.
  - intros [r Hr]. by apply appendCommandLineArguments_Some_fits in Hr.
  - intros [Hlen Hshort].
    pose proof (appendCommandLineArguments_fits b toStdString argv Hlen Hshort) as H.
    destruct (appendCommandLineArguments b toStdString argv); [by eexists|done].
Qed.

Lemma appendCommandLineArguments_defined_iff_witness :
  is_Some (appendCommandLineArguments Lifecycle.linux_build (λ s, s)
             ("plexmediaplayer" :: replicate 13 "--flag")%string)
  ∧ ¬ is_Some (appendCommandLineArguments Lifecycle.linux_build (λ s, s)
                 ("plexmediaplayer" :: replicate 14 "--flag")%string).
Proof.
  split.
  - apply (appendCommandLineArguments_defined_iff Lifecycle.linux_build (λ s, s)
             ("plexmediaplayer" :: replicate 13 "--flag")%string).
    split; [vm_compute; lia|]. repeat constructor.
  - intros H.
    apply (appendCommandLineArguments_defined_iff Lifecycle.linux_build (λ s, s)
             ("plexmediaplayer" :: replicate 14 "--flag")%string) in H as [H _].
    vm_compute in H. lia.
Defined.

(** X9: whenever the call is defined, the new [argc] is the old one plus the
    number of added arguments, a reader of the new vector sees every original
    argument (as converted), in order, followed by the added ones, and the
    slots of [newArgs] from the new [argc] on are still null. *)
Theorem appendCommandLineArguments_result b toStdString argv r :
  appendCommandLineArguments b toStdString argv = Some r →
  r.1 = length argv + length (extra_arguments b)
  ∧ arguments r = (toStdString <$> argv) ++ extra_arguments b
  ∧ length r.2 = newArgs_slots
  ∧ ∀ i, r.1 ≤ i < newArgs_slots → r.2 !! i = Some None.
Proof.
  intros Hr.
  destruct (appendCommandLineArguments_Some_fits _ _ _ _ Hr) as [Hlen Hshort].
  pose proof (appendCommandLineArguments_Some_arguments _ _ _ _ Hr) as Hargs.
  set (argList := map toStdString argv ++ extra_arguments b).
  assert (r = (length argList,
               (Some <$> argList) ++ drop (length argList) newArgs_init)) as Heq.
  { unfold appendCommandLineArguments in Hr. fold argList in Hr.
    rewrite rebuild_fits in Hr.
    - simpl in Hr. by injection Hr as <-.
    - unfold argList, newArgs_init.
      rewrite length_replicate, length_app, length_map.
      unfold newArgs_slots in *. lia.
    - apply Forall_app. split; [by apply Forall_fmap|apply extra_arguments_short]. }
  assert (length argList = length argv + length (extra_arguments b)) as Hl.
  { unfold argList. by rewrite length_app, length_map. }
  split; [by rewrite Heq|]. split; [done|].
  rewrite Heq. simpl. unfold newArgs_init, newArgs_slots in *. split.
  - rewrite length_app, length_fmap, length_drop, length_replicate. lia.
  - intros i Hi. rewrite lookup_app_r; rewrite length_fmap; [|lia].
    rewrite lookup_drop. apply lookup_replicate_2. lia.
Qed.

Lemma appendCommandLineArguments_result_witness :
  ∃ r, appendCommandLineArguments Lifecycle.linux_build (λ s, s)
         ["plexmediaplayer"; "--hidden"; "--unknown=1"]%string = Some r
    ∧ r.1 = 5
    ∧ arguments r = ["plexmediaplayer"; "--hidden"; "--unknown=1";
                     "--enable-viewport"; "--enable-viewport-meta"]%string.
Proof.
  destruct (appendCommandLineArguments Lifecycle.linux_build (λ s, s)
              ["plexmediaplayer"; "--hidden"; "--unknown=1"]%string)
    as [r|] eqn:Hr; [|vm_compute in Hr; discriminate Hr].
  exists r. split; [reflexivity|].
  destruct (appendCommandLineArguments_result _ _ _ _ Hr) as (H1 & H2 & _).
  split; [exact H1|exact H2].
Defined.

End CommandLineFacts.

Module LoggingFacts.
Import Logging.

Section Rotation.
Context {Rec : Type} (size : Rec → Z).

Lemma take_cons_take {A} n (x : A) l : take n (x :: take n l) = take n (x :: l).
Proof.
  destruct n as [|n]; simpl; [done|]. f_equal.
  rewrite take_take. f_equal. lia.
Qed.

Lemma write_rotates (d : FileDestination) (fs : LogFiles) r :
  MaxSizeBytes d < file_size size (active fs ++ [r]) →
  write size d fs r
  = {| active := [];
       rotated := take (Z.to_nat (MaxOldLogCount d))
                       ((active fs ++ [r]) :: rotated fs) |}.
Proof.
  intros H. unfold write, rotate. simpl.
  by destruct (Z.ltb_spec (MaxSizeBytes d) (file_size size (active fs ++ [r])));
    [|lia].
Qed.

Lemma write_appends (d : FileDestination) (fs : LogFiles) r :
  file_size size (active fs ++ [r]) ≤ MaxSizeBytes d →
  write size d fs r = {| active := active fs ++ [r]; rotated := rotated fs |}.
Proof.
  intros H. unfold write. simpl.
  by destruct (Z.ltb_spec (MaxSizeBytes d) (file_size size (active fs ++ [r])));
    [lia|].
Qed.

Lemma write_rotated_bound (d : FileDestination) (fs : LogFiles) r :
  (length (rotated fs) ≤ Z.to_nat (MaxOldLogCount d))%nat →
  (length (rotated (write size d fs r)) ≤ Z.to_nat (MaxOldLogCount d))%nat.
Proof.
  intros H. unfold write, rotate. simpl.
  destruct (_ <? _); simpl; [|done]. rewrite length_take. lia.
Qed.

Lemma writes_rotated_bound (d : FileDestination) rs (fs : LogFiles) :
  (length (rotated fs) ≤ Z.to_nat (MaxOldLogCount d))%nat →
  (length (rotated (foldl (write size d) fs rs)) ≤ Z.to_nat (MaxOldLogCount d))%nat.
Proof.
  revert fs. induction rs as [|r rs IH]; intros fs H; simpl; [done|].
  by apply IH, write_rotated_bound.
Qed.

(** Records that each exceed the bound: every write rotates. *)
Lemma writes_rotate_each (d : FileDestination) rs :
  Forall (λ r, MaxSizeBytes d < size r) rs →
  foldl (write size d) {| active := []; rotated := [] |} rs
  = {| active := [];
       rotated := take (Z.to_nat (MaxOldLogCount d))
                       (reverse ((λ r, [r]) <$> rs)) |}.
Proof.
  induction rs as [|r rs IH] using rev_ind; intros H.
  - simpl. by destruct (Z.to_nat (MaxOldLogCount d)).
  - apply Forall_app in H as [Hrs [Hr _]%Forall_cons].
    rewrite foldl_app, IH by done. simpl.
    rewrite write_rotates by (simpl; lia). simpl.
    rewrite fmap_app, reverse_app. simpl. by rewrite take_cons_take.
Qed.
End Rotation.

(** C9: [initLogger] adds one file destination with rotation on open, a size
    bound of 1024 * 1024 bytes and nine old logs; under the rotation policy
    a write that takes the active file past the bound rotates it, there are
    never more than nine rotated files, and after ten rotations from a fresh
    directory the nine most recent files are the ones kept. *)
Theorem initLogger_rotation_policy (logFile : string) (l : Logger) :
  ∃ d,
    destinations (initLogger logFile l) = destinations l ++ [d]
    ∧ filePath d = logFile
    ∧ rotation d = EnableLogRotationOnOpen
    ∧ MaxSizeBytes d = 1048576
    ∧ MaxOldLogCount d = 9
    ∧ processingCallback (initLogger logFile l) = Some Redaction.processLog
    ∧ (∀ (Rec : Type) (size : Rec → Z) (fs : LogFiles) (r : Rec),
         1048576 < file_size size (active fs ++ [r]) →
         write size d fs r
         = {| active := [];
              rotated := take 9 ((active fs ++ [r]) :: rotated fs) |})
    ∧ (∀ (Rec : Type) (size : Rec → Z) (fs : LogFiles) (rs : list Rec),
         (length (rotated fs) ≤ 9)%nat →
         (length (rotated (foldl (write size d) fs rs)) ≤ 9)%nat)
    ∧ (∀ (Rec : Type) (size : Rec → Z) (rs : list Rec),
         Forall (λ r, 1048576 < size r) rs →
         foldl (write size d) {| active := []; rotated := [] |} rs
         = {| active := []; rotated := take 9 (reverse ((λ r, [r]) <$> rs)) |}).
Proof.
  eexists. split; [reflexivity|]. repeat split.
  - intros Rec size fs r H. by apply (write_rotates size).
  - intros Rec size fs rs H. by apply (writes_rotated_bound size).
  - intros Rec size rs H. by apply (writes_rotate_each size).
Qed.

(** Ten records of 2 MB each, written to a fresh directory: the file holding
    the first record is gone, the other nine are kept, newest first. *)
Lemma initLogger_rotation_policy_witness :
  ∃ d,
    destinations (initLogger "pmp.log" empty_logger) = [d]
    ∧ foldl (write (λ r : Z, 2097152) d) {| active := []; rotated := [] |}
            [1; 2; 3; 4; 5; 6; 7; 8; 9; 10]
      = {| active := [];
           rotated := [[10]; [9]; [8]; [7]; [6]; [5]; [4]; [3]; [2]] |}.
Proof.
  destruct (initLogger_rotation_policy "pmp.log" empty_logger)
    as (d & Hd & _ & _ & _ & _ & _ & _ & _ & Hten).
  exists d. split; [exact Hd|].
  rewrite (Hten Z (λ _, 2097152) [1; 2; 3; 4; 5; 6; 7; 8; 9; 10]).
  - reflexivity.
  - repeat constructor.
Defined.

Example logLevelFromString_examples :
  logLevelFromString "warn" = WarnLevel
  ∧ logLevelFromString "disable" = OffLevel
  ∧ logLevelFromString "verbose" = DebugLevel.
Proof. repeat split. Qed.
(** Only the name ["disable"] gives [OffLevel]. *)
Lemma logLevelFromString_off s :
  logLevelFromString s = OffLevel → s = "disable"%string.
Proof.
  unfold logLevelFromString.
  repeat match goal with
         | |- context [String.eqb ?a ?b] => destruct (String.eqb_spec a b)
         end; congruence.
Qed.



(** Membership in a list of string literals. *)
Ltac elem_strings H :=
  repeat (apply elem_of_cons in H as [H|H];
          [first [discriminate H | by subst]|]);
  try (by apply elem_of_nil in H).

(** X10: [logLevelFromString] gives each of the seven recognised names a
    level of its own, and [DebugLevel] to every other string: a level other
    than [DebugLevel] is returned for its name and for nothing else, and
    [DebugLevel] is returned for ["debug"] and for every string that is none
    of the other six names.  The comparison is exact: a name in another case
    is not recognised. *)
Theorem logLevelFromString_recognised_names s :
  (logLevelFromString s = TraceLevel ↔ s = "trace"%string)
  ∧ (logLevelFromString s = InfoLevel ↔ s = "info"%string)
  ∧ (logLevelFromString s = WarnLevel ↔ s = "warn"%string)
  ∧ (logLevelFromString s = ErrorLevel ↔ s = "error"%string)
  ∧ (logLevelFromString s = FatalLevel ↔ s = "fatal"%string)
  ∧ (logLevelFromString s = OffLevel ↔ s = "disable"%string)
  ∧ (logLevelFromString s = DebugLevel
     ↔ s ∉ ["trace"; "info"; "warn"; "error"; "fatal"; "disable"]%string).
Proof.
  unfold logLevelFromString.
  repeat match goal with
         | |- context [String.eqb s ?b] => destruct (String.eqb_spec s b)
         end.
  all: repeat split; intros; subst; try done.
  all: try (intros Hin; by elem_strings Hin).
  all: match goal with
       | H : _ ∉ _ |- _ => exfalso; apply H; repeat constructor
       end.
Qed.

Lemma logLevelFromString_recognised_names_witness :
  logLevelFromString "Warn" = DebugLevel ∧ logLevelFromString "warn" = WarnLevel.
Proof.
  destruct (logLevelFromString_recognised_names "Warn")
    as (_ & _ & _ & _ & _ & _ & Hdefault).
  destruct (logLevelFromString_recognised_names "warn")
    as (_ & _ & Hwarn & _).
  split; [|by apply Hwarn].
  apply Hdefault. intros H. by elem_strings H.
Defined.

End LoggingFacts.

Module LifecycleFacts.
Import Lifecycle Logging.
Local Open Scope string_scope.
Local Open Scope list_scope.

Lemma wpm_bind {A B} (m : M A) (k : A → M B) Ψ :
  wpm m (λ v r, match r with
                | Normal a => wpm (k a) (λ v' r', Ψ (v ++ v') r')
                | Returned c => Ψ v (Returned c)
                | Thrown e => Ψ v (Thrown e)
                | Undefined => Ψ v Undefined
                end) →
  wpm (bind m k) Ψ.
Proof.
  destruct m as [t [a|c|e|]]; unfold wpm, bind; simpl; try done.
  destruct (k a) as [t' r']; simpl. unfold milestones. by rewrite omap_app.
Qed.

Lemma wpm_toolkit q Ψ :
  Ψ (option_list (milestone (Toolkit q))) (Normal tt) →
  wpm (toolkit q) Ψ.
Proof. unfold wpm, toolkit, milestones. simpl. by destruct (milestone (Toolkit q)). Qed.

Lemma wpm_ask {A} w c (a : A) Ψ :
  (∀ e, fatal w c = Some e → Ψ [Call c] (Thrown e)) →
  (fatal w c = None → Ψ [Call c] (Normal a)) →
  wpm (ask w c a) Ψ.
Proof. unfold wpm, ask. intros H1 H2. destruct (fatal w c); simpl; auto. Qed.

Lemma wpm_return {A} code (Ψ : list Event → Result A → Prop) :
  Ψ [] (Returned code) → wpm (return_ code) Ψ.
Proof. done. Qed.

Lemma wpm_ret {A} (a : A) Ψ : Ψ [] (Normal a) → wpm (ret a) Ψ.
Proof. done. Qed.

Lemma wpm_defined {A} (o : option A) Ψ :
  (∀ a, o = Some a → Ψ [] (Normal a)) → (o = None → Ψ [] Undefined) →
  wpm (defined o) Ψ.
Proof. destruct o; unfold wpm; simpl; auto. Qed.

Lemma wpm_silent m Ψ : silent m → Ψ [] (Normal tt) → wpm m Ψ.
Proof. unfold wpm. by intros [-> ->]. Qed.

Lemma wpm_scan_arguments w args h Ψ :
  ("--licenses" ∈ args → Ψ [] (Returned 0)) →
  ("--licenses" ∉ args → Ψ [] (Normal (h || bool_decide ("--hidden" ∈ args)))) →
  wpm (scan_arguments w args h) Ψ.
Proof.
  revert h. induction args as [|a args IH]; intros h H1 H2; cbn [scan_arguments].
  - apply wpm_ret. simpl in H2. rewrite orb_false_r in H2. apply H2. by intros ?%elem_of_nil.
  - destruct (String.eqb_spec a "--licenses") as [->|Hl].
    { apply wpm_bind, wpm_toolkit. cbn. apply wpm_return, H1. left. }
    destruct (String.eqb_spec a "--hidden") as [->|Hh].
    + apply wpm_bind, wpm_toolkit. cbn. apply IH.
      * intros Hin. apply H1. by right.
      * intros Hnin. simpl.
        assert (h || bool_decide ("--hidden" ∈ "--hidden" :: args) = true) as E.
        { rewrite bool_decide_true by left. by rewrite orb_true_r. }
        rewrite E in H2. apply H2. intros [?|?]%elem_of_cons; done.
    + apply IH.
      * intros Hin. apply H1. by right.
      * intros Hnin.
        assert (bool_decide ("--hidden" ∈ a :: args)
                = bool_decide ("--hidden" ∈ args)) as E.
        { apply bool_decide_ext. rewrite elem_of_cons.
          split; [intros [?|?]; done|by right]. }
        rewrite <- E. apply H2. intros [?|?]%elem_of_cons; done.
Qed.

Ltac silent_tac :=
  unfold silent, when;
  repeat match goal with
         | |- context [if ?b then _ else _] => destruct b
         | |- context [match ?o with Some _ => _ | None => _ end] => destruct o
         end; done.

Ltac wpm_step :=
  lazymatch goal with
  | |- wpm (bind _ _) _ => apply wpm_bind
  | |- wpm (toolkit _) _ => apply wpm_toolkit; cbn [milestone option_list]
  | |- wpm (call _ _) _ => apply wpm_ask; [intros ? ? | intros ?]
  | |- wpm (ask _ _ _) _ => apply wpm_ask; [intros ? ? | intros ?]
  | |- wpm (return_ _) _ => apply wpm_return
  | |- wpm (ret _) _ => apply wpm_ret
  | |- wpm (defined _) _ => apply wpm_defined; [intros ? ? | intros ?]
  | |- wpm (scan_arguments _ _ _) _ => apply wpm_scan_arguments; intros ?
  | |- wpm (when _ (toolkit _)) _ => apply wpm_silent; [silent_tac|]
  | |- wpm (when _ (bind (toolkit _) (λ _, toolkit _))) _ =>
      apply wpm_silent; [silent_tac|]
  | |- wpm (when ?b _) _ => destruct b eqn:?; cbn [when]
  | |- wpm (if negb ?b then _ else _) _ => destruct b eqn:?; cbn [negb]
  | |- wpm (if ?b then toolkit _ else toolkit _) _ => apply wpm_silent; [silent_tac|]
  | |- wpm (if ?b then _ else _) _ => destruct b eqn:?
  | |- wpm (preinitQt _ _) _ => unfold preinitQt
  | |- wpm (updateLogLevel _ _) _ => unfold updateLogLevel
  | |- wpm (run_initLogger _) _ => unfold run_initLogger
  end; cbv beta iota zeta.

Ltac wpm_run := unfold main_try; repeat wpm_step; cbn [app].


Lemma milestones_fallback_view w argv e : milestones (fallback_view w argv e) = [].
Proof. reflexivity. Qed.

Lemma main_post w b argv (Φ : list Event → Outcome → Prop) :
  wpm (main_try w b argv) (λ v r, Φ v (exit_of r)) →
  Φ (milestones (trace (main w b argv))) (outcome (main w b argv)).
Proof.
  unfold wpm, main, trace, outcome.
  destruct (main_try w b argv) as [t [[]|c|e|]]; simpl; try done.
  unfold milestones. rewrite omap_app. fold (milestones (fallback_view w argv e)).
  by rewrite milestones_fallback_view, app_nil_r.
Qed.

Lemma elem_of_milestones c t : Call c ∈ t ↔ Call c ∈ milestones t.
Proof.
  unfold milestones. rewrite list_elem_of_omap. split.
  - intros H. by exists (Call c).
  - intros (e & He & Hm). by destruct e as [c'|[]]; simplify_eq/=.
Qed.

Lemma phases_milestones t : phases t = omap phase_of (milestones t).
Proof.
  unfold phases, milestones. induction t as [|[c|q] t IH]; simpl; [done|..].
  - destruct c; simpl; first [exact IH | f_equal; exact IH].
  - destruct q; simpl; exact IH.
Qed.

Lemma calls_milestones t : calls t = calls (milestones t).
Proof.
  unfold calls, milestones. induction t as [|[c|q] t IH]; simpl; [done|..].
  - f_equal; exact IH.
  - destruct q; simpl; exact IH.
Qed.


Lemma milestone_Some e x : milestone e = Some x → e = x.
Proof. destruct e as [c|[]]; simpl; congruence. Qed.

Lemma omap_split {A B} (f : A → option B) t l1 x l2 :
  omap f t = l1 ++ x :: l2 →
  ∃ t1 e t2, t = t1 ++ e :: t2 ∧ f e = Some x ∧ omap f t1 = l1 ∧ omap f t2 = l2.
Proof.
  revert l1. induction t as [|a t IH]; intros l1; simpl.
  - by destruct l1.
  - destruct (f a) as [y|] eqn:Ha.
    + destruct l1 as [|z l1]; simpl.
      * intros [= -> <-]. exists [], a, t. by rewrite Ha.
      * intros [= -> (t1 & e & t2 & -> & He & <- & <-)%IH].
        exists (a :: t1), e, t2. simpl. by rewrite Ha.
    + intros (t1 & e & t2 & -> & He & <- & <-)%IH.
      exists (a :: t1), e, t2. simpl. by rewrite Ha.
Qed.

Ltac elem_inv H :=
  repeat (apply elem_of_cons in H as [H|H]; [try discriminate H|]);
  try (apply elem_of_nil in H; contradiction).

Ltac leaf_prep :=
  cbn [app option_list exit_of]; try congruence.

Ltac solve_prefix :=
  simpl;
  match goal with
  | |- context [bool_decide ?P] => destruct (bool_decide P) eqn:?
  | _ => idtac
  end; simpl in *; try discriminate; eexists; reflexivity.

(** The phases of a leaf, whatever [--hidden] is. *)
Ltac phases_leaf :=
  simpl;
  match goal with
  | |- context [bool_decide ?P] => destruct (bool_decide P) eqn:?
  | _ => idtac
  end; simpl in *; try discriminate; reflexivity.

(** C2 (as amended): in every run the phases that occur are an initial
    segment of the start-up order.  In a run without [--licenses], with
    arguments that fit and in which no call raises, [main] performs the
    first two phases when another instance is the leader, the first four
    when an update was applied, and all of them otherwise; and whenever the
    event loop was entered and has returned, every phase was performed, the
    teardown last.  The crash reporter is installed after the command line
    has been handled and the application object constructed, before every
    other phase. *)
Theorem startup_phases_in_order w b argv :
  phases (trace (main w b argv))
    `prefix_of` startup_order (bool_decide ("--hidden" ∈ drop 1 argv))
  ∧ (Call SetupCrashDumper ∈ trace (main w b argv) →
     ∃ pre args post,
       trace (main w b argv) = pre ++ Call SetupCrashDumper :: post
       ∧ Call Names_MainName ∈ pre
       ∧ Toolkit (NewGuiApplication args) ∈ pre
       ∧ phases pre = [])
  ∧ ("--licenses" ∉ drop 1 argv →
     is_Some (CommandLine.appendCommandLineArguments b (toStdString w) argv) →
     (∀ c, fatal w c = None) →
     phases (trace (main w b argv))
     = if negb (ensureUnique w) then [CrashReporter; SingleInstance]
       else if checkForUpdates w
            then [CrashReporter; SingleInstance; LoggingPipeline; UpdateGate]
            else startup_order (bool_decide ("--hidden" ∈ drop 1 argv)))
  ∧ (Call Exec ∈ trace (main w b argv) →
     fatal w Exec = None →
     phases (trace (main w b argv))
     = startup_order (bool_decide ("--hidden" ∈ drop 1 argv))
     ∧ last (phases (trace (main w b argv))) = Some Teardown).
Proof.
  cut (omap phase_of (milestones (trace (main w b argv)))
         `prefix_of` startup_order (bool_decide ("--hidden" ∈ drop 1 argv))
       ∧ (Call SetupCrashDumper ∈ milestones (trace (main w b argv)) →
          ∃ pre args post,
            milestones (trace (main w b argv)) = pre ++ Call SetupCrashDumper :: post
            ∧ Call Names_MainName ∈ pre
            ∧ Toolkit (NewGuiApplication args) ∈ pre
            ∧ omap phase_of pre = [])
       ∧ ("--licenses" ∉ drop 1 argv →
          is_Some (CommandLine.appendCommandLineArguments b (toStdString w) argv) →
          (∀ c, fatal w c = None) →
          omap phase_of (milestones (trace (main w b argv)))
          = if negb (ensureUnique w) then [CrashReporter; SingleInstance]
            else if checkForUpdates w
                 then [CrashReporter; SingleInstance; LoggingPipeline; UpdateGate]
                 else startup_order (bool_decide ("--hidden" ∈ drop 1 argv)))
       ∧ (Call Exec ∈ milestones (trace (main w b argv)) →
          fatal w Exec = None →
          omap phase_of (milestones (trace (main w b argv)))
          = startup_order (bool_decide ("--hidden" ∈ drop 1 argv))
          ∧ last (omap phase_of (milestones (trace (main w b argv))))
            = Some Teardown)).
  { intros (Hord & Hcrash & Hfull & Hexec). rewrite phases_milestones.
    split; [done|]. split; [|split; [done|]].
    - intros Hin%elem_of_milestones.
      destruct (Hcrash Hin) as (pre & args & post & Heq & Hn & Ha & Hp).
      apply omap_split in Heq as (t1 & e & t2 & Ht & He%milestone_Some & <- & <-).
      subst e. exists t1, args, t2. split; [done|].
      split; [by apply elem_of_milestones|]. split.
      + apply list_elem_of_omap in Ha as (e & He & <-%milestone_Some). done.
      + by rewrite phases_milestones.
    - intros Hin%elem_of_milestones. by apply Hexec. }
  apply (main_post w b argv (λ v _,
    omap phase_of v `prefix_of` startup_order (bool_decide ("--hidden" ∈ drop 1 argv))
    ∧ (Call SetupCrashDumper ∈ v →
       ∃ pre args post, v = pre ++ Call SetupCrashDumper :: post
         ∧ Call Names_MainName ∈ pre
         ∧ Toolkit (NewGuiApplication args) ∈ pre
         ∧ omap phase_of pre = [])
    ∧ ("--licenses" ∉ drop 1 argv →
       is_Some (CommandLine.appendCommandLineArguments b (toStdString w) argv) →
       (∀ c, fatal w c = None) →
       omap phase_of v
       = if negb (ensureUnique w) then [CrashReporter; SingleInstance]
         else if checkForUpdates w
              then [CrashReporter; SingleInstance; LoggingPipeline; UpdateGate]
              else startup_order (bool_decide ("--hidden" ∈ drop 1 argv)))
    ∧ (Call Exec ∈ v →
       fatal w Exec = None →
       omap phase_of v = startup_order (bool_decide ("--hidden" ∈ drop 1 argv))
       ∧ last (omap phase_of v) = Some Teardown))).
  wpm_run.
  all: leaf_prep.
  all: split; [solve_prefix|].
  all: split;
    [ intros Hin; first
        [ by (exfalso; elem_inv Hin)
        | eexists [_; _; _], _, _; split; [reflexivity|];
          split; [by repeat constructor|]; split; [by repeat constructor|done]
        | eexists [_; _; _; _], _, _; split; [reflexivity|];
          split; [by repeat constructor|]; split; [by repeat constructor|done] ]
    | ].
  all: split.
  all: [> first
    [ intros Hnl [? Happ] Hq;
      match goal with
      | H : fatal _ _ = Some _ |- _ => rewrite Hq in H; discriminate H
      | H : "--licenses" ∈ _ |- _ => by destruct Hnl
      | H : CommandLine.appendCommandLineArguments _ _ _ = None |- _ =>
          rewrite Happ in H; discriminate H
      end
    | intros _ _ _; phases_leaf
    | intros Hin _; by (exfalso; elem_inv Hin)
    | intros _ Hf;
      match goal with
      | H : fatal _ Exec = Some _ |- _ => rewrite Hf in H; discriminate H
      end
    | intros _ _; split; phases_leaf ] .. ].
Qed.

Lemma elem_of_milestones_shown e t : milestone e = Some e → e ∈ milestones t → e ∈ t.
Proof.
  intros _ (e' & He & <-%milestone_Some)%list_elem_of_omap. done.
Qed.

(** C3: when the update check reports an applied update, [main] asks the
    application to quit and returns 0; the component manager is not
    initialised and the UI is not loaded. *)
Theorem update_applied_exits_before_components w b argv :
  Call CheckForUpdates ∈ trace (main w b argv) →
  fatal w CheckForUpdates = None →
  checkForUpdates w = true →
  outcome (main w b argv) = Exit 0
  ∧ (Call ComponentManager_initialize ∉ trace (main w b argv))
  ∧ (Call LoadUI ∉ trace (main w b argv))
  ∧ Toolkit AppQuit ∈ trace (main w b argv)
  ∧ last (calls (trace (main w b argv))) = Some CheckForUpdates.
Proof.
  intros Hin%elem_of_milestones Hf Hu. revert Hin.
  cut (Call CheckForUpdates ∈ milestones (trace (main w b argv)) →
       outcome (main w b argv) = Exit 0
       ∧ (Call ComponentManager_initialize ∉ milestones (trace (main w b argv)))
       ∧ (Call LoadUI ∉ milestones (trace (main w b argv)))
       ∧ Toolkit AppQuit ∈ milestones (trace (main w b argv))
       ∧ last (calls (milestones (trace (main w b argv)))) = Some CheckForUpdates).
  { intros H Hin. destruct (H Hin) as (? & H1 & H2 & H3 & H4).
    split; [done|]. split; [by intros ?%elem_of_milestones|].
    split; [by intros ?%elem_of_milestones|].
    split; [by apply elem_of_milestones_shown in H3|].
    by rewrite calls_milestones. }
  apply (main_post w b argv (λ v o,
    Call CheckForUpdates ∈ v →
    o = Exit 0
    ∧ (Call ComponentManager_initialize ∉ v)
    ∧ (Call LoadUI ∉ v)
    ∧ Toolkit AppQuit ∈ v
    ∧ last (calls v) = Some CheckForUpdates)).
  wpm_run.
  all: leaf_prep.
  all: intros Hin.
  all: first
    [ by (exfalso; elem_inv Hin)
    | split; [reflexivity|]; split; [intros H'; by elem_inv H'|];
      split; [intros H'; by elem_inv H'|];
      split; [by repeat constructor|reflexivity] ].
Qed.

(** C4: when [ensureUnique] reports another instance, [main] returns
    [EXIT_SUCCESS] at once: [ensureUnique] is the last call it makes into the
    application, and logging, the update check, the component manager and the
    UI are never reached. *)
Theorem second_instance_exits_at_once w b argv :
  Call EnsureUnique ∈ trace (main w b argv) →
  fatal w EnsureUnique = None →
  ensureUnique w = false →
  outcome (main w b argv) = Exit EXIT_SUCCESS
  ∧ last (calls (trace (main w b argv))) = Some EnsureUnique
  ∧ (Call InitLogger ∉ trace (main w b argv))
  ∧ (Call CheckForUpdates ∉ trace (main w b argv))
  ∧ (Call ComponentManager_initialize ∉ trace (main w b argv))
  ∧ (Call LoadUI ∉ trace (main w b argv)).
Proof.
  intros Hin%elem_of_milestones Hf Hu. revert Hin.
  cut (Call EnsureUnique ∈ milestones (trace (main w b argv)) →
       outcome (main w b argv) = Exit EXIT_SUCCESS
       ∧ last (calls (milestones (trace (main w b argv)))) = Some EnsureUnique
       ∧ (Call InitLogger ∉ milestones (trace (main w b argv)))
       ∧ (Call CheckForUpdates ∉ milestones (trace (main w b argv)))
       ∧ (Call ComponentManager_initialize ∉ milestones (trace (main w b argv)))
       ∧ (Call LoadUI ∉ milestones (trace (main w b argv)))).
  { intros H Hin. destruct (H Hin) as (? & H1 & H2 & H3 & H4 & H5).
    split; [done|]. split; [by rewrite calls_milestones|].
    repeat split; by intros ?%elem_of_milestones. }
  apply (main_post w b argv (λ v o,
    Call EnsureUnique ∈ v →
    o = Exit EXIT_SUCCESS
    ∧ last (calls v) = Some EnsureUnique
    ∧ (Call InitLogger ∉ v)
    ∧ (Call CheckForUpdates ∉ v)
    ∧ (Call ComponentManager_initialize ∉ v)
    ∧ (Call LoadUI ∉ v))).
  wpm_run.
  all: leaf_prep.
  all: intros Hin.
  all: first
    [ by (exfalso; elem_inv Hin)
    | split; [reflexivity|]; split; [reflexivity|];
      repeat split; intros H'; by elem_inv H' ].
Qed.

(** C8 (as amended): with [--hidden] the UI is never loaded; and when the run
    is not cut short (no [--licenses], arguments that fit, no other instance,
    no update, no fault) it goes through every other phase in order and
    returns what the event loop returned. *)
Theorem hidden_start_never_loads_ui w b argv :
  "--hidden" ∈ drop 1 argv →
  (Call LoadUI ∉ trace (main w b argv))
  ∧ ("--licenses" ∉ drop 1 argv →
     is_Some (CommandLine.appendCommandLineArguments b (toStdString w) argv) →
     (∀ c, fatal w c = None) →
     ensureUnique w = true →
     checkForUpdates w = false →
     phases (trace (main w b argv))
       = [CrashReporter; SingleInstance; LoggingPipeline; UpdateGate;
          ComponentInit; EventLoop; Teardown]
     ∧ outcome (main w b argv) = Exit (exec_result w)).
Proof.
  intros Hh. apply (bool_decide_true _) in Hh as Hbd.
  rewrite phases_milestones.
  cut ((Call LoadUI ∉ milestones (trace (main w b argv)))
       ∧ ("--licenses" ∉ drop 1 argv →
          is_Some (CommandLine.appendCommandLineArguments b (toStdString w) argv) →
          (∀ c, fatal w c = None) →
          ensureUnique w = true →
          checkForUpdates w = false →
          omap phase_of (milestones (trace (main w b argv)))
            = [CrashReporter; SingleInstance; LoggingPipeline; UpdateGate;
               ComponentInit; EventLoop; Teardown]
          ∧ outcome (main w b argv) = Exit (exec_result w))).
  { intros [H1 H2]. split; [by intros ?%elem_of_milestones|done]. }
  apply (main_post w b argv (λ v o,
    (Call LoadUI ∉ v)
    ∧ ("--licenses" ∉ drop 1 argv →
       is_Some (CommandLine.appendCommandLineArguments b (toStdString w) argv) →
       (∀ c, fatal w c = None) →
       ensureUnique w = true →
       checkForUpdates w = false →
       omap phase_of v
         = [CrashReporter; SingleInstance; LoggingPipeline; UpdateGate;
            ComponentInit; EventLoop; Teardown]
       ∧ o = Exit (exec_result w)))).
  wpm_run.
  all: leaf_prep.
  all: try (match goal with
            | H : negb _ = true |- _ => rewrite Hbd in H; discriminate H
            end).
  all: split; [intros H'; by elem_inv H'|].
  all: intros Hnl [? Happ] Hq Hu Hc; try discriminate Hu; try discriminate Hc.
  all: try (match goal with
            | H : fatal _ _ = Some _ |- _ => rewrite Hq in H; discriminate H
            | H : "--licenses" ∈ _ |- _ => by destruct Hnl
            | H : CommandLine.appendCommandLineArguments _ _ _ = None |- _ =>
                rewrite Happ in H; discriminate H
            | H : ensureUnique _ = false |- _ => rewrite Hu in H; discriminate H
            | H : checkForUpdates _ = true |- _ => rewrite Hc in H; discriminate H
            end).
  all: split; reflexivity.
Qed.

Lemma scan_arguments_licenses w args h :
  "--licenses" ∈ args →
  ∃ k, scan_arguments w args h
       = (replicate k (Toolkit PrintStartingHidden)
          ++ [Toolkit (PrintLicenses (licenses_txt w))], Returned 0).
Proof.
  revert h. induction args as [|a args IH]; intros h Hin; [by apply elem_of_nil in Hin|].
  cbn [scan_arguments].
  destruct (String.eqb_spec a "--licenses") as [->|Hl]; [by exists 0%nat|].
  apply elem_of_cons in Hin as [?|Hin]; [done|].
  destruct (String.eqb_spec a "--hidden") as [->|Hh]; [|by apply IH].
  destruct (IH true Hin) as [k Hk]. exists (S k).
  unfold bind, toolkit. by rewrite Hk.
Qed.

(** C7: with [--licenses] among the arguments, [main] prints the licence
    text and returns 0; apart from the "Starting hidden" notices of earlier
    [--hidden] flags it does nothing else. *)
Theorem licenses_flag_prints_and_returns w b argv :
  "--licenses" ∈ drop 1 argv →
  ∃ k, main w b argv
       = (replicate k (Toolkit PrintStartingHidden)
          ++ [Toolkit (PrintLicenses (licenses_txt w))], Exit 0).
Proof.
  intros Hin. destruct (scan_arguments_licenses w _ false Hin) as [k Hk].
  exists k. unfold main, main_try. by rewrite Hk.
Qed.

(** *** Faults *)

Lemma quiet_nil w : quiet w [].
Proof. by intros c ?%elem_of_nil. Qed.

Lemma quiet_app w t1 t2 : quiet w t1 → quiet w t2 → quiet w (t1 ++ t2).
Proof. intros H1 H2 c [?|?]%elem_of_app; auto. Qed.

Lemma sound_ret w {A} (a : A) : sound w (ret a).
Proof. apply quiet_nil. Qed.

Lemma sound_return w {A} code : sound w (@return_ A code).
Proof. apply quiet_nil. Qed.

Lemma sound_defined w {A} (o : option A) : sound w (defined o).
Proof. destruct o; apply quiet_nil. Qed.

Lemma sound_toolkit w q : sound w (toolkit q).
Proof. intros c Hc. by elem_inv Hc. Qed.

Lemma sound_ask w {A} c (a : A) : sound w (ask w c a).
Proof.
  unfold sound, ask. destruct (fatal w c) as [e|] eqn:E; simpl.
  - exists [], c. split; [done|]. split; [done|apply quiet_nil].
  - intros c' Hc. elem_inv Hc. by simplify_eq.
Qed.

Lemma sound_bind w {A B} (m : M A) (k : A → M B) :
  sound w m → (∀ a, sound w (k a)) → sound w (bind m k).
Proof.
  destruct m as [t [a|code|e|]]; unfold sound at 1; simpl; intros Hm Hk; try done.
  specialize (Hk a). unfold sound in *. destruct (k a) as [t' r']; simpl in *.
  destruct r'; try by apply quiet_app.
  destruct Hk as (pre & c & -> & Hc & Hq). exists (t ++ pre), c.
  split; [by rewrite app_assoc|]. split; [done|by apply quiet_app].
Qed.

Lemma sound_when w b m : sound w m → sound w (when b m).
Proof. destruct b; [done|]. intros _. apply quiet_nil. Qed.

Lemma sound_scan_arguments w args h : sound w (scan_arguments w args h).
Proof.
  revert h. induction args as [|a args IH]; intros h; cbn [scan_arguments].
  - apply sound_ret.
  - destruct (String.eqb a "--licenses").
    { apply sound_bind; [apply sound_toolkit|intros; apply sound_return]. }
    destruct (String.eqb a "--hidden"); [|apply IH].
    apply sound_bind; [apply sound_toolkit|intros; apply IH].
Qed.

Ltac sound_step :=
  lazymatch goal with
  | |- sound _ (bind _ _) => apply sound_bind; [|intros ?]
  | |- sound _ (toolkit _) => apply sound_toolkit
  | |- sound _ (call _ _) => apply sound_ask
  | |- sound _ (ask _ _ _) => apply sound_ask
  | |- sound _ (return_ _) => apply sound_return
  | |- sound _ (ret _) => apply sound_ret
  | |- sound _ (defined _) => apply sound_defined
  | |- sound _ (scan_arguments _ _ _) => apply sound_scan_arguments
  | |- sound _ (when _ _) => apply sound_when
  | |- sound _ (if ?b then _ else _) => destruct b
  | |- sound _ (preinitQt _ _) => unfold preinitQt
  | |- sound _ (updateLogLevel _ _) => unfold updateLogLevel
  | |- sound _ (run_initLogger _) => unfold run_initLogger
  end; cbv beta zeta.

Lemma main_try_sound w b argv : sound w (main_try w b argv).
Proof. unfold main_try. repeat sound_step. Qed.


(** *** Concrete runs *)

Lemma update_applied_exits_before_components_witness :
  Call CheckForUpdates ∈ trace (main update_world linux_build ["plexmediaplayer"])
  ∧ outcome (main update_world linux_build ["plexmediaplayer"]) = Exit 0
  ∧ (Call ComponentManager_initialize
       ∉ trace (main update_world linux_build ["plexmediaplayer"])).
Proof.
  assert (Call CheckForUpdates
            ∈ trace (main update_world linux_build ["plexmediaplayer"])) as Hin.
  { vm_compute. repeat constructor. }
  split; [exact Hin|].
  destruct (update_applied_exits_before_components
              update_world linux_build ["plexmediaplayer"] Hin eq_refl eq_refl)
    as (H1 & H2 & _).
  split; [exact H1|exact H2].
Defined.

Lemma second_instance_exits_at_once_witness :
  Call EnsureUnique
    ∈ trace (main second_instance_world linux_build ["plexmediaplayer"; "movie.mkv"])
  ∧ outcome (main second_instance_world linux_build ["plexmediaplayer"; "movie.mkv"])
    = Exit EXIT_SUCCESS
  ∧ (Call InitLogger
       ∉ trace (main second_instance_world linux_build ["plexmediaplayer"; "movie.mkv"])).
Proof.
  assert (Call EnsureUnique
            ∈ trace (main second_instance_world linux_build
                       ["plexmediaplayer"; "movie.mkv"])) as Hin.
  { vm_compute. repeat constructor. }
  split; [exact Hin|].
  destruct (second_instance_exits_at_once
              second_instance_world linux_build ["plexmediaplayer"; "movie.mkv"]
              Hin eq_refl eq_refl) as (H1 & _ & H2 & _).
  split; [exact H1|exact H2].
Defined.


Lemma licenses_flag_prints_and_returns_witness :
  ∃ k, main quiet_world linux_build ["plexmediaplayer"; "--licenses"]
       = (replicate k (Toolkit PrintStartingHidden)
          ++ [Toolkit (PrintLicenses (licenses_txt quiet_world))], Exit 0).
Proof.
  apply (licenses_flag_prints_and_returns quiet_world linux_build
           ["plexmediaplayer"; "--licenses"]).
  vm_compute. repeat constructor.
Defined.

Lemma hidden_start_never_loads_ui_witness :
  (Call LoadUI ∉ trace (main quiet_world linux_build ["plexmediaplayer"; "--hidden"]))
  ∧ phases (trace (main quiet_world linux_build ["plexmediaplayer"; "--hidden"]))
    = [CrashReporter; SingleInstance; LoggingPipeline; UpdateGate;
       ComponentInit; EventLoop; Teardown]
  ∧ outcome (main quiet_world linux_build ["plexmediaplayer"; "--hidden"]) = Exit 0.
Proof.
  destruct (hidden_start_never_loads_ui quiet_world linux_build
              ["plexmediaplayer"; "--hidden"]) as [H1 H2].
  - vm_compute. repeat constructor.
  - split; [exact H1|]. apply H2.
    + vm_compute. intros H. by elem_inv H.
    + vm_compute. by eexists.
    + reflexivity.
    + reflexivity.
    + reflexivity.
Defined.

Lemma startup_phases_in_order_witness :
  (∃ pre args post,
     trace (main quiet_world windows_build ["plexmediaplayer"])
     = pre ++ Call SetupCrashDumper :: post
     ∧ Call Names_MainName ∈ pre
     ∧ Toolkit (NewGuiApplication args) ∈ pre
     ∧ phases pre = [])
  ∧ phases (trace (main quiet_world windows_build ["plexmediaplayer"]))
    = [CrashReporter; SingleInstance; LoggingPipeline; UpdateGate;
       ComponentInit; UIHandOff; EventLoop; Teardown]
  ∧ phases (trace (main update_world windows_build ["plexmediaplayer"]))
    = [CrashReporter; SingleInstance; LoggingPipeline; UpdateGate]
  ∧ last (phases (trace (main quiet_world windows_build ["plexmediaplayer"])))
    = Some Teardown.
Proof.
  destruct (startup_phases_in_order quiet_world windows_build ["plexmediaplayer"])
    as (_ & Hcrash & Hfull & Hexec).
  destruct (startup_phases_in_order update_world windows_build ["plexmediaplayer"])
    as (_ & _ & Hupdate & _).
  split; [|split; [|split]].
  - apply Hcrash. vm_compute. repeat constructor.
  - apply Hfull; [vm_compute; by intros ?%elem_of_nil|vm_compute; by eexists|done].
  - apply Hupdate; [vm_compute; by intros ?%elem_of_nil|vm_compute; by eexists|done].
  - apply Hexec; [vm_compute; repeat constructor|reflexivity].
Defined.

(** C2 as stated fails: on a Windows build the crash reporter is installed
    tenth, after the names and the version have been set, a preinit setting
    has been read and the application object has been constructed. *)
Lemma crash_reporter_is_not_the_first_action :
  take 9 (trace (main quiet_world windows_build ["plexmediaplayer"]))
  = [ Call Names_MainName;
      Toolkit SetApplicationName;
      Call Version_GetVersionString;
      Toolkit SetApplicationVersion;
      Toolkit (SetOrganizationDomain "plex.tv");
      Call (Settings_readPreinitValue "main" "useOpenGL");
      Toolkit (SetAttribute AA_UseOpenGLES);
      Toolkit (NewGuiApplication
                 ["plexmediaplayer"; "--enable-viewport"; "--enable-viewport-meta"]);
      Toolkit (SetWindowIcon ":/images/icon.png") ]
  ∧ trace (main quiet_world windows_build ["plexmediaplayer"]) !! 9%nat
    = Some (Call SetupCrashDumper).
Proof. split; reflexivity. Qed.

(** C8 as stated fails: with [--licenses] after [--hidden] the run prints
    and returns, and goes through no phase at all. *)
Lemma hidden_with_licenses_starts_nothing :
  "--hidden" ∈ drop 1 ["plexmediaplayer"; "--hidden"; "--licenses"]
  ∧ main quiet_world linux_build ["plexmediaplayer"; "--hidden"; "--licenses"]
    = ([Toolkit PrintStartingHidden; Toolkit (PrintLicenses "LICENSES")], Exit 0)
  ∧ phases (trace (main quiet_world linux_build
                     ["plexmediaplayer"; "--hidden"; "--licenses"])) = [].
Proof. split; [simpl; repeat constructor|]. split; reflexivity. Qed.

(** *** Further properties of [main] *)

Lemma wpv_bind {A B} P (m : M A) (k : A → M B) Ψ :
  wpv P m (λ v r, match r with
                  | Normal a => wpv P (k a) (λ v' r', Ψ (v ++ v') r')
                  | Returned c => Ψ v (Returned c)
                  | Thrown e => Ψ v (Thrown e)
                  | Undefined => Ψ v Undefined
                  end) →
  wpv P (bind m k) Ψ.
Proof.
  destruct m as [t [a|c|e|]]; unfold wpv, bind; simpl; try done.
  destruct (k a) as [t' r']; simpl. unfold shown. by rewrite omap_app.
Qed.

Lemma wpv_toolkit P q Ψ :
  Ψ (option_list (keep P (Toolkit q))) (Normal tt) → wpv P (toolkit q) Ψ.
Proof. unfold wpv, toolkit, shown. simpl. by destruct (keep P (Toolkit q)). Qed.

Lemma wpv_ask {A} P w c (a : A) Ψ :
  (∀ e, fatal w c = Some e → Ψ (option_list (keep P (Call c))) (Thrown e)) →
  (fatal w c = None → Ψ (option_list (keep P (Call c))) (Normal a)) →
  wpv P (ask w c a) Ψ.
Proof.
  unfold wpv, ask, shown. intros H1 H2.
  destruct (fatal w c); simpl; destruct (keep P (Call c)); simpl; auto.
Qed.

Lemma wpv_return {A} P code (Ψ : list Event → Result A → Prop) :
  Ψ [] (Returned code) → wpv P (return_ code) Ψ.
Proof. done. Qed.

Lemma wpv_ret {A} P (a : A) Ψ : Ψ [] (Normal a) → wpv P (ret a) Ψ.
Proof. done. Qed.

Lemma wpv_defined {A} P (o : option A) Ψ :
  (∀ a, o = Some a → Ψ [] (Normal a)) → (o = None → Ψ [] Undefined) →
  wpv P (defined o) Ψ.
Proof. destruct o; unfold wpv; simpl; auto. Qed.

Lemma wpv_silent P m Ψ : silent_for P m → Ψ [] (Normal tt) → wpv P m Ψ.
Proof. unfold wpv. by intros [-> ->]. Qed.

Lemma wpv_scan_arguments P w args h Ψ :
  P (Toolkit PrintStartingHidden) = false →
  P (Toolkit (PrintLicenses (licenses_txt w))) = false →
  ("--licenses" ∈ args → Ψ [] (Returned 0)) →
  ("--licenses" ∉ args → Ψ [] (Normal (h || bool_decide ("--hidden" ∈ args)))) →
  wpv P (scan_arguments w args h) Ψ.
Proof.
  intros Hp1 Hp2. revert h.
  induction args as [|a args IH]; intros h H1 H2; cbn [scan_arguments].
  - apply wpv_ret. simpl in H2. rewrite orb_false_r in H2. apply H2.
    by intros ?%elem_of_nil.
  - destruct (String.eqb_spec a "--licenses") as [->|Hl].
    { apply wpv_bind, wpv_toolkit. unfold keep. rewrite Hp2. cbn.
      apply wpv_return, H1. left. }
    destruct (String.eqb_spec a "--hidden") as [->|Hh].
    + apply wpv_bind, wpv_toolkit. unfold keep. rewrite Hp1. cbn. apply IH.
      * intros Hin. apply H1. by right.
      * intros Hnin. simpl.
        assert (h || bool_decide ("--hidden" ∈ "--hidden" :: args) = true) as E.
        { rewrite bool_decide_true by left. by rewrite orb_true_r. }
        rewrite E in H2. apply H2. intros [?|?]%elem_of_cons; done.
    + apply IH.
      * intros Hin. apply H1. by right.
      * intros Hnin.
        assert (bool_decide ("--hidden" ∈ a :: args)
                = bool_decide ("--hidden" ∈ args)) as E.
        { apply bool_decide_ext. rewrite elem_of_cons.
          split; [intros [?|?]; done|by right]. }
        rewrite <- E. apply H2. intros [?|?]%elem_of_cons; done.
Qed.

Lemma main_post_shown P w b argv (Φ : list Event → Outcome → Prop) :
  (∀ e, shown P (fallback_view w argv e) = []) →
  wpv P (main_try w b argv) (λ v r, Φ v (exit_of r)) →
  Φ (shown P (trace (main w b argv))) (outcome (main w b argv)).
Proof.
  intros Hfb. unfold wpv, main, trace, outcome.
  destruct (main_try w b argv) as [t [[]|c|e|]]; simpl; try done.
  unfold shown. rewrite omap_app. fold (shown P (fallback_view w argv e)).
  by rewrite Hfb, app_nil_r.
Qed.

Lemma elem_of_shown P e t : e ∈ shown P t ↔ e ∈ t ∧ P e = true.
Proof.
  unfold shown, keep. rewrite list_elem_of_omap. split.
  - intros (e' & He & Hk). destruct (P e') eqn:Hp; [|done].
    injection Hk as ->. done.
  - intros [He Hp]. exists e. by rewrite Hp.
Qed.

Ltac silent_for_tac :=
  unfold silent_for, when;
  repeat match goal with
         | |- context [if ?b then _ else _] => destruct b
         | |- context [match ?o with Some _ => _ | None => _ end] => destruct o
         end; done.

Ltac wpv_step :=
  lazymatch goal with
  | |- wpv _ (bind _ _) _ => apply wpv_bind
  | |- wpv _ (toolkit _) _ => apply wpv_toolkit
  | |- wpv _ (call _ _) _ => apply wpv_ask; [intros ? ? | intros ?]
  | |- wpv _ (ask _ _ _) _ => apply wpv_ask; [intros ? ? | intros ?]
  | |- wpv _ (return_ _) _ => apply wpv_return
  | |- wpv _ (ret _) _ => apply wpv_ret
  | |- wpv _ (defined _) _ => apply wpv_defined; [intros ? ? | intros ?]
  | |- wpv _ (scan_arguments _ _ _) _ =>
      apply wpv_scan_arguments; [reflexivity|reflexivity|intros ?|intros ?]
  | |- wpv _ (when ?b _) _ =>
      first [ apply wpv_silent; [solve [silent_for_tac]|]
            | destruct b eqn:?; cbn [when] ]
  | |- wpv _ (if negb ?b then _ else _) _ => destruct b eqn:?; cbn [negb]
  | |- wpv _ (if ?b then _ else _) _ =>
      first [ apply wpv_silent; [solve [silent_for_tac]|]
            | destruct b eqn:? ]
  | |- wpv _ (preinitQt _ _) _ => unfold preinitQt
  | |- wpv _ (updateLogLevel _ _) _ => unfold updateLogLevel
  | |- wpv _ (run_initLogger _) _ => unfold run_initLogger
  end; cbv beta iota zeta.

Ltac wpv_run := unfold main_try; repeat wpv_step.

(** Membership in a list given constructor by constructor: [tac] is run on
    each element the hypothesis can be. *)
Ltac elem_cases H tac :=
  repeat (apply elem_of_cons in H as [H|H]; [try discriminate H; tac|]);
  try (apply elem_of_nil in H; contradiction).

(** Two answers of the oracle for one call. *)
Ltac fatal_clash :=
  match goal with
  | Hn : fatal _ ?x = None, Hs : fatal _ ?x = Some _ |- _ =>
      rewrite Hn in Hs; discriminate Hs
  end.

(** X11: the loop over the arguments, when there is no [--licenses]: it
    prints one notice for every [--hidden], ignores every other argument,
    never returns, and [startHidden] ends up set exactly when it was set
    before or some argument is [--hidden]. *)
Theorem scan_arguments_without_licenses w args h :
  "--licenses" ∉ args →
  scan_arguments w args h
  = (replicate (length (filter (λ a, a = "--hidden") args))
               (Toolkit PrintStartingHidden),
     Normal (h || bool_decide ("--hidden" ∈ args))).
Proof.
  revert h. induction args as [|a args IH]; intros h Hnl; cbn [scan_arguments].
  - unfold ret. simpl. by rewrite orb_false_r.
  - destruct (String.eqb_spec a "--licenses") as [->|Hl].
    { destruct Hnl. left. }
    assert ("--licenses" ∉ args) as Hnl' by (intros ?; apply Hnl; by right).
    destruct (String.eqb_spec a "--hidden") as [->|Hh].
    + unfold bind, toolkit. rewrite IH by done.
      rewrite filter_cons_True by done.
      rewrite (bool_decide_true ("--hidden" ∈ "--hidden" :: args)) by left.
      by rewrite orb_true_r.
    + rewrite IH by done. rewrite filter_cons_False by done.
      do 3 f_equal. apply bool_decide_ext. rewrite elem_of_cons.
      split; [by right|intros [?|?]; done].
Qed.

Lemma scan_arguments_without_licenses_witness :
  scan_arguments quiet_world ["--hidden"; "movie.mkv"; "--hidden"] false
  = ([Toolkit PrintStartingHidden; Toolkit PrintStartingHidden], Normal true).
Proof.
  apply (scan_arguments_without_licenses quiet_world
           ["--hidden"; "movie.mkv"; "--hidden"] false).
  intros H. repeat (apply elem_of_cons in H as [H|H]; [discriminate H|]).
  by apply elem_of_nil in H.
Defined.

(** X12: [preinitQt] sets an OpenGL attribute exactly on a Windows build on
    which none of its calls raises, and the attribute is then desktop OpenGL
    when the preinit value of [useOpenGL] is the boolean true, OpenGL ES
    when the value is false, missing or of another type; no other attribute
    is set. *)
Theorem preinitQt_opengl_selection w b a :
  Toolkit (SetAttribute a) ∈ (preinitQt w b).1
  ↔ Q_OS_WIN32 b = true
    ∧ fatal w Names_MainName = None
    ∧ fatal w Version_GetVersionString = None
    ∧ fatal w (Settings_readPreinitValue (SETTINGS_SECTION_MAIN b) "useOpenGL")
      = None
    ∧ a = (if bool_decide (useOpenGL w = Some true) then AA_UseDesktopOpenGL
           else AA_UseOpenGLES).
Proof.
  unfold preinitQt, call, ask, when.
  destruct (fatal w Names_MainName); simpl;
    [split; [intros H; by elem_cases H idtac|by intros (_ & ? & _)]|].
  destruct (fatal w Version_GetVersionString); simpl;
    [split; [intros H; by elem_cases H idtac|by intros (_ & _ & ? & _)]|].
  destruct (Q_OS_WIN32 b); simpl;
    [|split; [intros H; by elem_cases H idtac|by intros (? & _)]].
  destruct (fatal w _); simpl;
    [split; [intros H; by elem_cases H idtac|by intros (_ & _ & _ & ? & _)]|].
  destruct (useOpenGL w) as [[|]|]; simpl;
    (split;
     [ intros H; elem_cases H ltac:(injection H as <-; done)
     | intros (_ & _ & _ & _ & ->); repeat constructor ]).
Qed.

Lemma preinitQt_opengl_selection_witness :
  Toolkit (SetAttribute AA_UseOpenGLES) ∈ (preinitQt quiet_world windows_build).1
  ∧ Toolkit (SetAttribute AA_UseDesktopOpenGL)
      ∉ (preinitQt quiet_world windows_build).1.
Proof.
  split.
  - apply (preinitQt_opengl_selection quiet_world windows_build AA_UseOpenGLES).
    repeat split.
  - intros H.
    apply (preinitQt_opengl_selection quiet_world windows_build
             AA_UseDesktopOpenGL) in H as (_ & _ & _ & _ & H).
    discriminate H.
Defined.

(** X13: the run of [main] is undefined exactly when there is no
    [--licenses] and the arguments do not fit the buffers of
    [appendCommandLineArguments]; this happens before any call into the
    application.  With [--licenses] the arguments are never copied. *)
Theorem main_undefined_iff w b argv :
  (outcome (main w b argv) = UndefinedBehaviour
   ↔ ("--licenses" ∉ drop 1 argv)
     ∧ CommandLine.appendCommandLineArguments b (toStdString w) argv = None)
  ∧ (outcome (main w b argv) = UndefinedBehaviour →
     calls (trace (main w b argv)) = []).
Proof.
  rewrite calls_milestones.
  apply (main_post w b argv (λ v o,
    (o = UndefinedBehaviour
     ↔ ("--licenses" ∉ drop 1 argv)
       ∧ CommandLine.appendCommandLineArguments b (toStdString w) argv = None)
    ∧ (o = UndefinedBehaviour → calls v = []))).
  wpm_run.
  all: leaf_prep.
  all: split; [split|]; try discriminate; try done.
  all: intros [Hnl Happ]; first [done | congruence].
Qed.

Lemma main_undefined_iff_witness :
  outcome (main quiet_world linux_build (replicate 15 "plexmediaplayer"))
  = UndefinedBehaviour
  ∧ calls (trace (main quiet_world linux_build (replicate 15 "plexmediaplayer")))
    = [].
Proof.
  destruct (main_undefined_iff quiet_world linux_build
              (replicate 15 "plexmediaplayer")) as [[_ H1] H2].
  assert (outcome (main quiet_world linux_build (replicate 15 "plexmediaplayer"))
          = UndefinedBehaviour) as E.
  { apply H1. split; [|reflexivity]. simpl. intros H. by elem_inv H. }
  split; [exact E|exact (H2 E)].
Defined.

(** X14: whenever the application object of the [try] block is constructed,
    it is given every original argument (as converted), in order, followed by
    the added ones: recognised flags such as [--hidden] are passed on too. *)
Theorem application_receives_all_arguments w b argv args :
  Toolkit (NewGuiApplication args) ∈ trace (main w b argv) →
  args = (toStdString w <$> argv) ++ CommandLine.extra_arguments b.
Proof.
  intros Hin.
  assert (Toolkit (NewGuiApplication args) ∈ milestones (trace (main w b argv)))
    as Hm.
  { apply list_elem_of_omap. by exists (Toolkit (NewGuiApplication args)). }
  clear Hin. revert Hm.
  apply (main_post w b argv (λ v _,
    Toolkit (NewGuiApplication args) ∈ v →
    args = (toStdString w <$> argv) ++ CommandLine.extra_arguments b)).
  wpm_run.
  all: leaf_prep.
  all: intros Hin.
  all: elem_cases Hin ltac:(
         injection Hin as ->;
         by eapply CommandLineFacts.appendCommandLineArguments_Some_arguments).
Qed.

Lemma application_receives_all_arguments_witness :
  ["plexmediaplayer"; "--hidden"; "--enable-viewport"; "--enable-viewport-meta"]
  = (toStdString quiet_world <$> ["plexmediaplayer"; "--hidden"])
    ++ CommandLine.extra_arguments linux_build.
Proof.
  apply (application_receives_all_arguments quiet_world linux_build
           ["plexmediaplayer"; "--hidden"]).
  vm_compute. repeat constructor.
Defined.

(** X15: once [app.exec()] has returned, [unload()] is always called; and
    when [unload()] returns too, [uniqueApp] is deleted and [main] returns
    what [app.exec()] returned. *)
Theorem event_loop_return_runs_teardown w b argv :
  Call Exec ∈ trace (main w b argv) →
  fatal w Exec = None →
  Call Unload ∈ trace (main w b argv)
  ∧ (fatal w Unload = None →
     Toolkit DeleteUniqueApplication ∈ trace (main w b argv)
     ∧ outcome (main w b argv) = Exit (exec_result w)).
Proof.
  intros Hin Hf.
  assert (Call Exec ∈ shown teardown_view (trace (main w b argv))) as Hs
    by by apply elem_of_shown.
  clear Hin. revert Hs.
  cut (Call Exec ∈ shown teardown_view (trace (main w b argv)) →
       Call Unload ∈ shown teardown_view (trace (main w b argv))
       ∧ (fatal w Unload = None →
          Toolkit DeleteUniqueApplication
            ∈ shown teardown_view (trace (main w b argv))
          ∧ outcome (main w b argv) = Exit (exec_result w))).
  { intros H Hs. destruct (H Hs) as [[H1 _]%elem_of_shown H2].
    split; [done|]. intros Hu. destruct (H2 Hu) as [[H3 _]%elem_of_shown H4].
    done. }
  apply (main_post_shown teardown_view w b argv (λ v o,
    Call Exec ∈ v →
    Call Unload ∈ v
    ∧ (fatal w Unload = None →
       Toolkit DeleteUniqueApplication ∈ v ∧ o = Exit (exec_result w))));
    [done|].
  wpv_run.
  all: simpl; try congruence.
  all: intros Hin.
  all: first
    [ by (exfalso; elem_inv Hin)
    | split; [by repeat constructor|]; intros Hu; first
        [ congruence | split; [by repeat constructor|reflexivity] ] ].
Qed.

Lemma event_loop_return_runs_teardown_witness :
  Call Unload ∈ trace (main quiet_world linux_build ["plexmediaplayer"])
  ∧ Toolkit DeleteUniqueApplication
      ∈ trace (main quiet_world linux_build ["plexmediaplayer"])
  ∧ outcome (main quiet_world linux_build ["plexmediaplayer"]) = Exit 0.
Proof.
  destruct (event_loop_return_runs_teardown quiet_world linux_build
              ["plexmediaplayer"]) as [H1 H2].
  - vm_compute. repeat constructor.
  - reflexivity.
  - split; [exact H1|]. apply H2. reflexivity.
Defined.

(** X16: a fault skips the teardown: after a call has raised, [uniqueApp] is
    not deleted, [unload()] is not called (unless it is the call that
    raised), and [main] returns 1. *)
Theorem fault_skips_teardown w b argv c message :
  Call c ∈ trace (main w b argv) →
  fatal w c = Some message →
  (Toolkit DeleteUniqueApplication ∉ trace (main w b argv))
  ∧ (c ≠ Unload → Call Unload ∉ trace (main w b argv))
  ∧ outcome (main w b argv) = Exit 1.
Proof.
  intros Hin Hf.
  assert (Call c ∈ shown teardown_view (trace (main w b argv))) as Hs
    by by apply elem_of_shown.
  clear Hin. revert Hs.
  cut (Call c ∈ shown teardown_view (trace (main w b argv)) →
       (Toolkit DeleteUniqueApplication
          ∉ shown teardown_view (trace (main w b argv)))
       ∧ (c ≠ Unload → Call Unload ∉ shown teardown_view (trace (main w b argv)))
       ∧ outcome (main w b argv) = Exit 1).
  { intros H Hs. destruct (H Hs) as (H1 & H2 & H3).
    split; [intros ?; apply H1; by apply elem_of_shown|].
    split; [|done]. intros Hne ?. apply (H2 Hne). by apply elem_of_shown. }
  apply (main_post_shown teardown_view w b argv (λ v o,
    Call c ∈ v →
    (Toolkit DeleteUniqueApplication ∉ v)
    ∧ (c ≠ Unload → Call Unload ∉ v)
    ∧ o = Exit 1)); [done|].
  wpv_run.
  all: simpl; try congruence.
  all: intros Hin.
  all: [> elem_cases Hin ltac:(
         injection Hin as ->;
         first
           [ fatal_clash
           | split; [intros H'; by elem_inv H'|];
             split; [|reflexivity];
             intros Hne H'; first [by elem_inv H' | by destruct Hne] ]) .. ].
Qed.

Lemma fault_skips_teardown_witness :
  (Toolkit DeleteUniqueApplication
     ∉ trace (main faulty_world linux_build ["plexmediaplayer"]))
  ∧ (Call Unload ∉ trace (main faulty_world linux_build ["plexmediaplayer"]))
  ∧ outcome (main faulty_world linux_build ["plexmediaplayer"]) = Exit 1.
Proof.
  destruct (fault_skips_teardown faulty_world linux_build ["plexmediaplayer"]
              ComponentManager_initialize "component failed")
    as (H1 & H2 & H3).
  - vm_compute. repeat constructor.
  - reflexivity.
  - split; [exact H1|]. split; [apply H2; discriminate|exact H3].
Defined.

(** X17: [uniqueApp] is deleted only at the normal end of [main]: after
    [app.exec()] and [unload()] have both returned.  The early returns
    (another instance, an applied update) and the [catch] block leave it
    allocated. *)
Theorem uniqueApp_deleted_only_at_normal_end w b argv :
  Toolkit DeleteUniqueApplication ∈ trace (main w b argv) →
  Call Exec ∈ trace (main w b argv)
  ∧ Call Unload ∈ trace (main w b argv)
  ∧ fatal w Exec = None
  ∧ fatal w Unload = None
  ∧ ensureUnique w = true
  ∧ checkForUpdates w = false
  ∧ outcome (main w b argv) = Exit (exec_result w).
Proof.
  intros Hin.
  assert (Toolkit DeleteUniqueApplication
            ∈ shown teardown_view (trace (main w b argv))) as Hs
    by by apply elem_of_shown.
  clear Hin. revert Hs.
  cut (Toolkit DeleteUniqueApplication
         ∈ shown teardown_view (trace (main w b argv)) →
       Call Exec ∈ shown teardown_view (trace (main w b argv))
       ∧ Call Unload ∈ shown teardown_view (trace (main w b argv))
       ∧ fatal w Exec = None
       ∧ fatal w Unload = None
       ∧ ensureUnique w = true
       ∧ checkForUpdates w = false
       ∧ outcome (main w b argv) = Exit (exec_result w)).
  { intros H Hs.
    destruct (H Hs) as ([H1 _]%elem_of_shown & [H2 _]%elem_of_shown & H3).
    done. }
  apply (main_post_shown teardown_view w b argv (λ v o,
    Toolkit DeleteUniqueApplication ∈ v →
    Call Exec ∈ v ∧ Call Unload ∈ v
    ∧ fatal w Exec = None ∧ fatal w Unload = None
    ∧ ensureUnique w = true ∧ checkForUpdates w = false
    ∧ o = Exit (exec_result w))); [done|].
  wpv_run.
  all: simpl; try congruence.
  all: intros Hin.
  all: first
    [ by (exfalso; elem_inv Hin)
    | split; [by repeat constructor|]; split; [by repeat constructor|];
      repeat split; done ].
Qed.

Lemma uniqueApp_deleted_only_at_normal_end_witness :
  Call Exec ∈ trace (main quiet_world linux_build ["plexmediaplayer"; "--hidden"])
  ∧ outcome (main quiet_world linux_build ["plexmediaplayer"; "--hidden"])
    = Exit (exec_result quiet_world).
Proof.
  destruct (uniqueApp_deleted_only_at_normal_end quiet_world linux_build
              ["plexmediaplayer"; "--hidden"]) as (H1 & _ & _ & _ & _ & _ & H2).
  - vm_compute. repeat constructor.
  - split; [exact H1|exact H2].
Defined.

(** A call that raised is reported by the [catch] block. *)
Lemma fault_is_logged w b argv c message :
  Call c ∈ trace (main w b argv) →
  fatal w c = Some message →
  Toolkit (QLog FatalLevel ("Unhandled FatalException: " +:+ message))
    ∈ trace (main w b argv).
Proof.
  intros Hin Hc. pose proof (main_try_sound w b argv) as Hs.
  unfold main, trace, outcome, sound in *.
  destruct (main_try w b argv) as [t [[]|code|e|]]; simpl in *;
    try (apply Hs in Hin; rewrite Hin in Hc; discriminate Hc).
  destruct Hs as (pre & c' & -> & Hc' & Hq).
  assert (e = message) as ->.
  { apply elem_of_app in Hin as [[Hin|Hin]%elem_of_app|Hin].
    - apply Hq in Hin. rewrite Hin in Hc. discriminate Hc.
    - apply list_elem_of_singleton in Hin as [= ->].
      rewrite Hc in Hc'. by injection Hc'.
    - unfold fallback_view in Hin. by elem_inv Hin. }
  apply elem_of_app. right. unfold fallback_view. left.
Qed.

(** X18: [main] returns a code other than 0 in two ways only: 1 after a
    call has raised, or the result of [app.exec()] at the normal end, after
    the teardown. *)
Theorem nonzero_exit_code w b argv n :
  outcome (main w b argv) = Exit n →
  n ≠ 0 →
  (n = 1 ∧ ∃ c message,
     Call c ∈ trace (main w b argv) ∧ fatal w c = Some message)
  ∨ (n = exec_result w
     ∧ Call Exec ∈ trace (main w b argv)
     ∧ Toolkit DeleteUniqueApplication ∈ trace (main w b argv)).
Proof.
  revert n.
  cut (∀ n, outcome (main w b argv) = Exit n → n ≠ 0 →
       (n = 1 ∧ ∃ c message,
          Call c ∈ shown teardown_view (trace (main w b argv))
          ∧ fatal w c = Some message)
       ∨ (n = exec_result w
          ∧ Call Exec ∈ shown teardown_view (trace (main w b argv))
          ∧ Toolkit DeleteUniqueApplication
              ∈ shown teardown_view (trace (main w b argv)))).
  { intros H n Ho Hn.
    destruct (H n Ho Hn) as [(-> & c & m & [Hc _]%elem_of_shown & Hf)
                            |(-> & [He _]%elem_of_shown & [Hd _]%elem_of_shown)].
    - left. split; [reflexivity|]. by exists c, m.
    - right. done. }
  apply (main_post_shown teardown_view w b argv (λ v o,
    ∀ n, o = Exit n → n ≠ 0 →
    (n = 1 ∧ ∃ c message, Call c ∈ v ∧ fatal w c = Some message)
    ∨ (n = exec_result w ∧ Call Exec ∈ v
       ∧ Toolkit DeleteUniqueApplication ∈ v))); [done|].
  wpv_run.
  all: simpl; intros n Ho Hn.
  all: [> first
    [ discriminate Ho
    | injection Ho as <-; first
        [ exfalso; apply Hn; reflexivity
        | left; split; [reflexivity|];
          match goal with
          | H : fatal _ ?x = Some ?e |- _ =>
              exists x, e; split; [repeat constructor|exact H]
          end
        | right; split; [reflexivity|]; split; repeat constructor ] ] .. ].
Qed.

Lemma nonzero_exit_code_witness :
  (1 = 1 ∧ ∃ c message,
     Call c ∈ trace (main faulty_world linux_build ["plexmediaplayer"])
     ∧ fatal faulty_world c = Some message)
  ∨ (1 = exec_result faulty_world
     ∧ Call Exec ∈ trace (main faulty_world linux_build ["plexmediaplayer"])
     ∧ Toolkit DeleteUniqueApplication
         ∈ trace (main faulty_world linux_build ["plexmediaplayer"])).
Proof.
  apply (nonzero_exit_code faulty_world linux_build ["plexmediaplayer"] 1).
  - reflexivity.
  - lia.
Defined.

(** X19: a fault of a call that [main] makes before [initLogger()] is
    reported through [QLOG_FATAL] although [initLogger()] is never called in
    that run: the logger has no file destination then. *)
Theorem fault_before_logging w b argv c message :
  Call c ∈ trace (main w b argv) →
  fatal w c = Some message →
  before_logging c = true →
  (Call InitLogger ∉ trace (main w b argv))
  ∧ Toolkit (QLog FatalLevel ("Unhandled FatalException: " +:+ message))
      ∈ trace (main w b argv).
Proof.
  intros Hin Hf Hb. split; [|by eapply fault_is_logged].
  assert (Call c ∈ shown teardown_view (trace (main w b argv))) as Hs
    by by apply elem_of_shown.
  clear Hin. revert Hs.
  cut (Call c ∈ shown teardown_view (trace (main w b argv)) →
       Call InitLogger ∉ shown teardown_view (trace (main w b argv))).
  { intros H Hs Hl. apply (H Hs). by apply elem_of_shown. }
  apply (main_post_shown teardown_view w b argv (λ v o,
    Call c ∈ v → Call InitLogger ∉ v)); [done|].
  wpv_run.
  all: simpl; intros Hin.
  all: [> elem_cases Hin ltac:(
         injection Hin as ->;
         first [ fatal_clash
               | discriminate Hb
               | intros H'; by elem_inv H' ]) .. ].
Qed.

Lemma fault_before_logging_witness :
  (Call InitLogger
     ∉ trace (main {| licenses_txt := ""; toStdString := λ s, s; tr := λ s, s;
                      useOpenGL := None; ensureUnique := true;
                      checkForUpdates := false; remoteInspector := false;
                      logLevel := ""; exec_result := 0;
                      fatal := λ c, match c with
                                    | SetupCrashDumper => Some "no dump directory"
                                    | _ => None
                                    end |}
                   linux_build ["plexmediaplayer"]))
  ∧ Toolkit (QLog FatalLevel "Unhandled FatalException: no dump directory")
      ∈ trace (main {| licenses_txt := ""; toStdString := λ s, s; tr := λ s, s;
                       useOpenGL := None; ensureUnique := true;
                       checkForUpdates := false; remoteInspector := false;
                       logLevel := ""; exec_result := 0;
                       fatal := λ c, match c with
                                     | SetupCrashDumper => Some "no dump directory"
                                     | _ => None
                                     end |}
                    linux_build ["plexmediaplayer"]).
Proof.
  apply (fault_before_logging _ linux_build ["plexmediaplayer"]
           SetupCrashDumper "no dump directory").
  - vm_compute. repeat constructor.
  - reflexivity.
  - reflexivity.
Defined.

(** [level.size()] is zero exactly for the empty string. *)
Lemma size_zero s :
  negb (Nat.eqb (String.length s) 0) = negb (bool_decide (s = "")).
Proof.
  destruct s; [reflexivity|]. by case_bool_decide.
Qed.

(** X20: [main] sets the logging level at two places only, in this order:
    [initLogger()] sets [DebugLevel], and after the start of the helper
    [updateLogLevel] sets the level that the [logLevel] setting names, when
    the setting is not empty.  In a run that reaches the event loop these
    are all the changes.  Logging is switched off only by the value
    ["disable"]. *)
Theorem logging_level_changes w b argv :
  shown log_level_view (trace (main w b argv))
    `prefix_of`
    [Call InitLogger; Toolkit (SetLoggingLevel DebugLevel);
     Call HelperLauncher_connectToHelper]
    ++ (if bool_decide (logLevel w = "") then []
        else [Toolkit (SetLoggingLevel (logLevelFromString (logLevel w)))])
    ++ [Call Exec]
  ∧ (Call Exec ∈ trace (main w b argv) →
     shown log_level_view (trace (main w b argv))
     = [Call InitLogger; Toolkit (SetLoggingLevel DebugLevel);
        Call HelperLauncher_connectToHelper]
       ++ (if bool_decide (logLevel w = "") then []
           else [Toolkit (SetLoggingLevel (logLevelFromString (logLevel w)))])
       ++ [Call Exec])
  ∧ (∀ l, Toolkit (SetLoggingLevel l) ∈ trace (main w b argv) →
          l = DebugLevel
          ∨ (l = logLevelFromString (logLevel w) ∧ logLevel w ≠ ""))
  ∧ (Toolkit (SetLoggingLevel OffLevel) ∈ trace (main w b argv) →
     logLevel w = "disable").
Proof.
  cut (shown log_level_view (trace (main w b argv))
         `prefix_of`
         [Call InitLogger; Toolkit (SetLoggingLevel DebugLevel);
          Call HelperLauncher_connectToHelper]
         ++ (if bool_decide (logLevel w = "") then []
             else [Toolkit (SetLoggingLevel (logLevelFromString (logLevel w)))])
         ++ [Call Exec]
       ∧ (Call Exec ∈ shown log_level_view (trace (main w b argv)) →
          shown log_level_view (trace (main w b argv))
          = [Call InitLogger; Toolkit (SetLoggingLevel DebugLevel);
             Call HelperLauncher_connectToHelper]
            ++ (if bool_decide (logLevel w = "") then []
                else [Toolkit (SetLoggingLevel (logLevelFromString (logLevel w)))])
            ++ [Call Exec])
       ∧ (∀ l, Toolkit (SetLoggingLevel l)
                 ∈ shown log_level_view (trace (main w b argv)) →
               l = DebugLevel
               ∨ (l = logLevelFromString (logLevel w) ∧ logLevel w ≠ ""))).
  { intros (Hpre & Hexact & Hlevels).
    split; [done|]. split; [intros ?; apply Hexact; by apply elem_of_shown|].
    split; [intros l ?; apply Hlevels; by apply elem_of_shown|].
    intros Hoff. destruct (Hlevels OffLevel) as [?|[Hl _]];
      [by apply elem_of_shown|done|].
    by apply LoggingFacts.logLevelFromString_off. }
  apply (main_post_shown log_level_view w b argv (λ v o,
    v `prefix_of`
      [Call InitLogger; Toolkit (SetLoggingLevel DebugLevel);
       Call HelperLauncher_connectToHelper]
      ++ (if bool_decide (logLevel w = "") then []
          else [Toolkit (SetLoggingLevel (logLevelFromString (logLevel w)))])
      ++ [Call Exec]
    ∧ (Call Exec ∈ v →
       v = [Call InitLogger; Toolkit (SetLoggingLevel DebugLevel);
            Call HelperLauncher_connectToHelper]
           ++ (if bool_decide (logLevel w = "") then []
               else [Toolkit (SetLoggingLevel (logLevelFromString (logLevel w)))])
           ++ [Call Exec])
    ∧ (∀ l, Toolkit (SetLoggingLevel l) ∈ v →
            l = DebugLevel
            ∨ (l = logLevelFromString (logLevel w) ∧ logLevel w ≠ "")))); [done|].
  wpv_run.
  all: simpl.
  all: try match goal with
           | H : negb (Nat.eqb (String.length _) 0) = _ |- _ =>
               rewrite size_zero in H
           end.
  all: match goal with
       | |- context [bool_decide ?P] => destruct (bool_decide P) eqn:Hbd
       end; simpl in *; try discriminate.
  all: [> split; [eexists; reflexivity|];
          split;
          [ intros Hin; first [reflexivity | by (exfalso; elem_inv Hin)]
          | intros l Hin;
            elem_cases Hin ltac:(
              injection Hin as ->;
              first [ left; reflexivity
                    | right; split; [reflexivity|];
                      by apply bool_decide_eq_false in Hbd ]) ] .. ].
Qed.

Lemma logging_level_changes_witness :
  shown log_level_view
    (trace (main {| licenses_txt := ""; toStdString := λ s, s; tr := λ s, s;
                    useOpenGL := None; ensureUnique := true;
                    checkForUpdates := false; remoteInspector := false;
                    logLevel := "warn"; exec_result := 0; fatal := λ _, None |}
                 linux_build ["plexmediaplayer"]))
  = [Call InitLogger; Toolkit (SetLoggingLevel DebugLevel);
     Call HelperLauncher_connectToHelper; Toolkit (SetLoggingLevel WarnLevel);
     Call Exec].
Proof.
  refine (proj1 (proj2 (logging_level_changes
            {| licenses_txt := ""; toStdString := λ s, s; tr := λ s, s;
               useOpenGL := None; ensureUnique := true;
               checkForUpdates := false; remoteInspector := false;
               logLevel := "warn"; exec_result := 0; fatal := λ _, None |}
            linux_build ["plexmediaplayer"])) _).
  vm_compute. repeat constructor.
Defined.

(** X21: [main] sets two environment variables at most.
    [QT_LOGGING_RULES] is set on macOS only; [QTWEBENGINE_REMOTE_DEBUGGING]
    is set only to ["0.0.0.0:9992"], only when the [remoteInspector] setting
    is true, and only after the components are initialized: among the
    [qputenv] calls and [ComponentManager::Get().initialize()] of the run it
    comes last, directly after the initialization. *)
Theorem environment_variables_set w b argv name value :
  Toolkit (Qputenv name value) ∈ trace (main w b argv) →
  (name = "QT_LOGGING_RULES" ∧ value = "qt.network.ssl.warning=false"
   ∧ Q_OS_MAC b = true)
  ∨ (name = "QTWEBENGINE_REMOTE_DEBUGGING" ∧ value = "0.0.0.0:9992"
     ∧ remoteInspector w = true
     ∧ shown environment_view (trace (main w b argv))
       = (if Q_OS_MAC b
          then [Toolkit (Qputenv "QT_LOGGING_RULES"
                           "qt.network.ssl.warning=false")]
          else [])
         ++ [Call ComponentManager_initialize;
             Toolkit (Qputenv "QTWEBENGINE_REMOTE_DEBUGGING" "0.0.0.0:9992")]).
Proof.
  intros Hin.
  assert (Toolkit (Qputenv name value)
            ∈ shown environment_view (trace (main w b argv))) as Hs
    by by apply elem_of_shown.
  clear Hin. revert Hs.
  apply (main_post_shown environment_view w b argv (λ v o,
    Toolkit (Qputenv name value) ∈ v →
    (name = "QT_LOGGING_RULES" ∧ value = "qt.network.ssl.warning=false"
     ∧ Q_OS_MAC b = true)
    ∨ (name = "QTWEBENGINE_REMOTE_DEBUGGING" ∧ value = "0.0.0.0:9992"
       ∧ remoteInspector w = true
       ∧ v = (if Q_OS_MAC b
              then [Toolkit (Qputenv "QT_LOGGING_RULES"
                               "qt.network.ssl.warning=false")]
              else [])
             ++ [Call ComponentManager_initialize;
                 Toolkit (Qputenv "QTWEBENGINE_REMOTE_DEBUGGING"
                            "0.0.0.0:9992")]))); [done|].
  wpv_run.
  all: simpl; intros Hin.
  all: [> elem_cases Hin ltac:(
         injection Hin as -> ->;
         first
           [ left; split; [reflexivity|]; split; reflexivity
           | right; split; [reflexivity|]; split; [reflexivity|];
             split; reflexivity ]) .. ].
Qed.

Lemma environment_variables_set_witness :
  shown environment_view
    (trace (main {| licenses_txt := ""; toStdString := λ s, s; tr := λ s, s;
                    useOpenGL := None; ensureUnique := true;
                    checkForUpdates := false; remoteInspector := true;
                    logLevel := ""; exec_result := 0; fatal := λ _, None |}
                 linux_build ["plexmediaplayer"]))
  = [Call ComponentManager_initialize;
     Toolkit (Qputenv "QTWEBENGINE_REMOTE_DEBUGGING" "0.0.0.0:9992")].
Proof.
  destruct (environment_variables_set
              {| licenses_txt := ""; toStdString := λ s, s; tr := λ s, s;
                 useOpenGL := None; ensureUnique := true;
                 checkForUpdates := false; remoteInspector := true;
                 logLevel := ""; exec_result := 0; fatal := λ _, None |}
              linux_build ["plexmediaplayer"]
              "QTWEBENGINE_REMOTE_DEBUGGING" "0.0.0.0:9992")
    as [(H & _)|(_ & _ & _ & H)].
  - vm_compute. repeat constructor.
  - discriminate H.
  - exact H.
Defined.

(** X22: in a run that reaches [QtWebEngine::initialize()], the environment
    is complete by then: among the [qputenv] calls and the initialization,
    the initialization comes last, directly after the remote debugging
    address when the setting asks for it. *)
Theorem environment_complete_before_web_engine w b argv :
  Toolkit QtWebEngine_initialize ∈ trace (main w b argv) →
  shown web_engine_view (trace (main w b argv))
  = (if Q_OS_MAC b
     then [Toolkit (Qputenv "QT_LOGGING_RULES" "qt.network.ssl.warning=false")]
     else [])
    ++ (if remoteInspector w
        then [Toolkit (Qputenv "QTWEBENGINE_REMOTE_DEBUGGING" "0.0.0.0:9992")]
        else [])
    ++ [Toolkit QtWebEngine_initialize].
Proof.
  intros Hin.
  assert (Toolkit QtWebEngine_initialize
            ∈ shown web_engine_view (trace (main w b argv))) as Hs
    by by apply elem_of_shown.
  clear Hin. revert Hs.
  apply (main_post_shown web_engine_view w b argv (λ v o,
    Toolkit QtWebEngine_initialize ∈ v →
    v = (if Q_OS_MAC b
         then [Toolkit (Qputenv "QT_LOGGING_RULES" "qt.network.ssl.warning=false")]
         else [])
        ++ (if remoteInspector w
            then [Toolkit (Qputenv "QTWEBENGINE_REMOTE_DEBUGGING" "0.0.0.0:9992")]
            else [])
        ++ [Toolkit QtWebEngine_initialize])); [done|].
  wpv_run.
  all: simpl; intros Hin.
  all: [> first [ reflexivity | by (exfalso; elem_inv Hin) ] .. ].
Qed.

Lemma environment_complete_before_web_engine_witness :
  shown web_engine_view (trace (main quiet_world linux_build ["plexmediaplayer"]))
  = [Toolkit QtWebEngine_initialize].
Proof.
  apply (environment_complete_before_web_engine quiet_world linux_build
           ["plexmediaplayer"]).
  vm_compute. repeat constructor.
Defined.

End LifecycleFacts.
